(** * Log anomaly detector: severity scale and dashboard aggregation

    A shallow embedding of the classification and aggregation code of the
    front end: [frontend/src/utils/severity.ts] (score normalizer and severity
    classifier) and [frontend/src/pages/Visualizations.tsx] (the three chart
    aggregators and the two click handlers that filter the records), then of
    the components that use them: the state, the loading and the rendering of
    [Visualizations.tsx] and [pages/About.tsx], and the dialog
    [components/LogDetailModal.tsx].

    Conventions of the embedding.
    - A JavaScript [number] is an IEEE 754 binary64 value: scores are
      primitive floats ([PrimFloat.float]), whose operations are the ones the
      engine performs.  Counts of records are natural numbers (exact in
      binary64 below 2^53, far above the length of an array), timestamps are
      integers (epoch milliseconds).
    - Strings are sequences of bytes.  The code only searches messages for
      ASCII keywords after [toLowerCase]; [toLowerCase] is modelled on the
      ASCII letters, which decides the same searches (no character outside
      ASCII lowers to a sequence that completes one of the keywords).
    - The object that a [reduce] fills is a list of own properties in order of
      creation, read back by [Object.entries] in the order ECMAScript fixes:
      array-index keys first, ascending, then the others as created.
    - [Array.prototype.sort] is stable; it is modelled by a stable insertion
      sort, the result every conforming engine computes when the comparator
      is consistent. *)

From Stdlib Require Import Bool List String Ascii Arith ZArith Lia.
From Stdlib Require Import DecimalString Zpower.
From Stdlib Require Import QArith Qround.
From Stdlib Require Import Floats Uint63.
From Stdlib Require Import Sorting.Sorted Sorting.Permutation.
Import ListNotations.
Close Scope Q_scope.

(* Decimal literals denote the nearest binary64 value, as they do in
   JavaScript: -0.2 and -0.05 below are not exact. *)
Set Warnings "-inexact-float".

(** * Part I: the code *)

(** ** JavaScript numbers: the [Math] functions the code calls *)

Module JsMath.
Local Open Scope float_scope.

(** An integer below 2^53 in absolute value, as the binary64 value it is. *)
Definition of_Z (n : Z) : float :=
  match n with
  | Z0 => zero
  | Zpos _ => of_uint63 (Uint63.of_Z n)
  | Zneg _ => - of_uint63 (Uint63.of_Z (- n))
  end.

(** [Math.min(a, b)] and [Math.max(a, b)]: NaN when an argument is NaN,
    and -0 is below +0. *)
Definition min (a b : float) : float :=
  if is_nan a || is_nan b then nan
  else if a <? b then a
  else if b <? a then b
  else if get_sign a then a else b.

Definition max (a b : float) : float :=
  if is_nan a || is_nan b then nan
  else if a <? b then b
  else if b <? a then a
  else if get_sign a then b else a.

(** [Math.round(x)]: the integer nearest to [x], the one towards +infinity
    when two are equally near; NaN, the infinities and the integers are
    returned as they are, and a result of zero keeps the sign of [x].
    A finite [x] is [(-1)^s * m * 2^e]; when [e < 0] the result is
    [floor (x + 1/2)], computed exactly on the integers. *)
Definition round (x : float) : float :=
  match Prim2SF x with
  | S754_finite s m e =>
    if (0 <=? e)%Z then x
    else
      let n := ((2 * cond_Zopp s (Zpos m) + 2 ^ (- e)) / 2 ^ (1 - e))%Z in
      if (n =? 0)%Z then (if s then neg_zero else zero) else of_Z n
  | _ => x
  end.
End JsMath.

(** ** severity.ts *)

Inductive SeverityLevel := critical | severe | moderate | low | normal.

Record Severity := {
  level : SeverityLevel;
  label : string;
  color : string;
  bgColor : string;
  borderColor : string
}.

(** [convertToTenScale(rawScore)]. *)
Definition convertToTenScale (rawScore : float) : float :=
  let clampedScore := JsMath.max (-1) (JsMath.min 1 rawScore) in
  let tenScale := (10 - ((clampedScore + 1) * 4.5))%float in
  (JsMath.round (tenScale * 10) / 10)%float.

Module Severities.
Local Open Scope string_scope.

Definition Critical : Severity :=
  {| level := critical; label := "Critical"; color := "#ef4444";
     bgColor := "rgba(239, 68, 68, 0.15)";
     borderColor := "rgba(239, 68, 68, 0.4)" |}.

Definition Severe : Severity :=
  {| level := severe; label := "Severe"; color := "#f97316";
     bgColor := "rgba(249, 115, 22, 0.15)";
     borderColor := "rgba(249, 115, 22, 0.3)" |}.

Definition Moderate : Severity :=
  {| level := moderate; label := "Moderate"; color := "#fbbf24";
     bgColor := "rgba(251, 191, 36, 0.15)";
     borderColor := "rgba(251, 191, 36, 0.3)" |}.

Definition Low : Severity :=
  {| level := low; label := "Low"; color := "#60a5fa";
     bgColor := "rgba(96, 165, 250, 0.15)";
     borderColor := "rgba(96, 165, 250, 0.3)" |}.

Definition Normal : Severity :=
  {| level := normal; label := "Normal"; color := "#6ee7b7";
     bgColor := "rgba(16, 185, 129, 0.15)";
     borderColor := "rgba(16, 185, 129, 0.3)" |}.
End Severities.

(** [getSeverity(score, _isAnomaly)]: four comparisons, tried in order. *)
Definition getSeverity (score : float) (_isAnomaly : bool) : Severity :=
  if (score <? -0.5)%float then Severities.Critical
  else if (score <? -0.2)%float then Severities.Severe
  else if (score <? -0.05)%float then Severities.Moderate
  else if (score <? 0)%float then Severities.Low
  else Severities.Normal.

(** The rank of a tier, higher for the more severe one:
    critical > severe > moderate > low > normal. *)
Definition rank (l : SeverityLevel) : nat :=
  match l with
  | critical => 4
  | severe => 3
  | moderate => 2
  | low => 1
  | normal => 0
  end.

Definition at_least_as_severe (a b : SeverityLevel) : Prop := rank b <= rank a.

(** ** JavaScript strings, arrays and objects, as far as the page uses them *)

Module Js.
Local Open Scope string_scope.

(** *** Strings *)

Definition lower (c : ascii) : ascii :=
  let n := nat_of_ascii c in
  if (65 <=? n)%nat && (n <=? 90)%nat then ascii_of_nat (n + 32) else c.

(** [s.toLowerCase()]. *)
Fixpoint toLowerCase (s : string) : string :=
  match s with
  | EmptyString => EmptyString
  | String c s' => String (lower c) (toLowerCase s')
  end.

(** [s.includes(sub)]: [sub] starts at some position of [s]. *)
Fixpoint includes (s sub : string) : bool :=
  String.prefix sub s ||
  match s with
  | EmptyString => false
  | String _ s' => includes s' sub
  end.

(** *** Values stored under a key

    The reducers store [(acc[k] || 0) + 1].  That is a number, unless [k]
    names a member inherited from [Object.prototype]: then [acc[k]] is that
    member and [+] concatenates strings. *)
Inductive value :=
  | Num (n : nat)
  | Str (s : string).

(** [ToNumber]: [None] is NaN.  A string stored by a reducer is the text of
    an inherited member followed by 1s, never a numeric literal. *)
Definition toNumber (v : value) : option Z :=
  match v with
  | Num n => Some (Z.of_nat n)
  | Str _ => None
  end.

(** [a - b] on values. *)
Definition sub (a b : value) : option Z :=
  match toNumber a, toNumber b with
  | Some x, Some y => Some (x - y)%Z
  | _, _ => None
  end.

(** *** Arrays *)

(** [arr.sort(compareFn)], [compareFn] returning a number ([None] is NaN,
    which counts as zero).  The sort is stable: an element moves in front
    of another one only when [compareFn] puts it strictly before. *)
Section Sort.
Context {A : Type} (compareFn : A -> A -> option Z).

Definition after (x y : A) : bool :=
  match compareFn x y with
  | Some v => (0 <? v)%Z
  | None => false
  end.

Fixpoint insert (x : A) (l : list A) : list A :=
  match l with
  | [] => [x]
  | y :: l' => if after x y then y :: insert x l' else x :: l
  end.

Definition sort (l : list A) : list A := fold_right insert [] l.
End Sort.

(** [arr.slice(0, n)] and [arr.slice(-n)]. *)
Definition slice_first {A} (n : nat) (l : list A) : list A := firstn n l.
Definition slice_last {A} (n : nat) (l : list A) : list A :=
  skipn (List.length l - n) l.

(** *** Objects created by [{}] and used as maps *)

(** Own properties, in order of creation. *)
Definition object := list (string * value).

Fixpoint own (o : object) (k : string) : option value :=
  match o with
  | [] => None
  | (k', v) :: o' => if String.eqb k' k then Some v else own o' k
  end.

(** The members every object inherits from [Object.prototype], each with
    the string it converts to (the engine's text of a native function; the
    accessor [__proto__] reads the prototype object itself). *)
Definition native (name : string) : string :=
  "function " ++ name ++ "() { [native code] }".

Definition Object_prototype : list (string * string) :=
  [ ("constructor", native "Object");
    ("__defineGetter__", native "__defineGetter__");
    ("__defineSetter__", native "__defineSetter__");
    ("hasOwnProperty", native "hasOwnProperty");
    ("__lookupGetter__", native "__lookupGetter__");
    ("__lookupSetter__", native "__lookupSetter__");
    ("isPrototypeOf", native "isPrototypeOf");
    ("propertyIsEnumerable", native "propertyIsEnumerable");
    ("toString", native "toString");
    ("valueOf", native "valueOf");
    ("__proto__", "[object Object]");
    ("toLocaleString", native "toLocaleString") ].

Fixpoint inherited_from (p : list (string * string)) (k : string)
  : option string :=
  match p with
  | [] => None
  | (k', text) :: p' => if String.eqb k' k then Some text else inherited_from p' k
  end.

Definition inherited : string -> option string :=
  inherited_from Object_prototype.

(** [(o[k] || 0) + 1]. *)
Definition incr (o : object) (k : string) : value :=
  match own o k with
  | Some (Num n) => Num (n + 1)
  | Some (Str s) => if String.eqb s "" then Num 1 else Str (s ++ "1")
  | None =>
    match inherited k with
    | Some text => Str (text ++ "1")
    | None => Num 1
    end
  end.

Fixpoint replace (o : object) (k : string) (v : value) : object :=
  match o with
  | [] => []
  | (k', v') :: o' =>
    if String.eqb k' k then (k', v) :: o' else (k', v') :: replace o' k v
  end.

(** [o[k] = v], [v] a number or a string: an own property is overwritten, a
    new one is created last; the inherited setter of [__proto__] ignores a
    value that is not an object and creates nothing. *)
Definition set (o : object) (k : string) (v : value) : object :=
  match own o k with
  | Some _ => replace o k v
  | None => if String.eqb k "__proto__" then o else (o ++ [(k, v)])%list
  end.

(** A key is an array index when it is the decimal numeral, without sign or
    leading zero, of an integer from 0 to 2^32 - 2. *)
Definition digit (c : ascii) : option N :=
  let n := N_of_ascii c in
  if (48 <=? n)%N && (n <=? 57)%N then Some (n - 48)%N else None.

Fixpoint numeral (s : string) (acc : N) : option N :=
  match s with
  | EmptyString => Some acc
  | String c s' =>
    match digit c with
    | Some d => numeral s' (10 * acc + d)%N
    | None => None
    end
  end.

Definition array_index (k : string) : option N :=
  match k with
  | EmptyString => None
  | String c rest =>
    if Ascii.eqb c "0" && negb (String.eqb rest "") then None
    else
      match numeral k 0 with
      | Some n => if (n <=? 4294967294)%N then Some n else None
      | None => None
      end
  end.

Definition is_index (k : string) : bool :=
  match array_index k with Some _ => true | None => false end.

Definition index_of (k : string) : Z :=
  match array_index k with Some n => Z.of_N n | None => 0 end.

(** [Object.entries(o)]: the array-index keys in ascending numeric order,
    then the other keys in order of creation. *)
Definition entries (o : object) : list (string * value) :=
  (sort (fun a b => Some (index_of (fst a) - index_of (fst b))%Z)
      (filter (fun p => is_index (fst p)) o)
   ++ filter (fun p => negb (is_index (fst p))) o)%list.
End Js.

(** ** services/api.ts: the records *)

(** The interface [LogEntry] that the pages import from [services/api]:
    [id], [serviceName] and [message] are strings, [timestamp] and [score]
    numbers (a timestamp is a time value, an integer of milliseconds),
    [isAnomaly] a boolean. *)
Record LogEntry := {
  id : string;
  serviceName : string;
  message : string;
  timestamp : Z;
  isAnomaly : bool;
  score : float
}.

(** ** The host's [Date]

    What [getTimeSeriesData] asks of the engine depends on the viewer's
    locale and time zone: [new Date(t).toLocaleDateString()] for a timestamp
    [t], and [new Date(s).getTime()] for a string [s] ([None] is NaN, the
    time of an invalid date). *)
Record Host := {
  toLocaleDateString : Z -> string;
  getTime : string -> option Z
}.

(** ** pages/Visualizations.tsx *)

Module TimeSeries.
Record point := { date : string; count : Js.value }.
End TimeSeries.

Module Service.
Record point := { service : string; count : Js.value }.
End Service.

Module Category.
Record point := { name : string; value : Js.value }.
End Category.

Section Visualizations.
Local Open Scope string_scope.
Variable host : Host.

(** [a - b] on numbers that may be NaN. *)
Definition minus (a b : option Z) : option Z :=
  match a, b with
  | Some x, Some y => Some (x - y)%Z
  | _, _ => None
  end.

Definition getTimeSeriesData (anomalies : list LogEntry)
  : list TimeSeries.point :=
  let grouped :=
    fold_left (fun acc log =>
                 let date := toLocaleDateString host (timestamp log) in
                 Js.set acc date (Js.incr acc date))
              anomalies [] in
  Js.slice_last 10
    (Js.sort (fun a b => minus (getTime host (TimeSeries.date a))
                               (getTime host (TimeSeries.date b)))
       (map (fun '(date, count) =>
               {| TimeSeries.date := date; TimeSeries.count := count |})
            (Js.entries grouped))).

Definition getServiceData (anomalies : list LogEntry)
  : list Service.point :=
  let grouped :=
    fold_left (fun acc log =>
                 Js.set acc (serviceName log) (Js.incr acc (serviceName log)))
              anomalies [] in
  Js.slice_first 5
    (Js.sort (fun a b => Js.sub (Service.count b) (Service.count a))
       (map (fun '(service, count) =>
               {| Service.service := service; Service.count := count |})
            (Js.entries grouped))).

(** The category that the reducer of [getCategoryData] computes from the
    lower-cased message [msg]. *)
Definition categoryOf (msg : string) : string :=
  if Js.includes msg "error" || Js.includes msg "exception" then "Errors"
  else if Js.includes msg "timeout" then "Timeouts"
  else if Js.includes msg "connection" || Js.includes msg "unavailable"
       then "Connection Issues"
  else if Js.includes msg "fail" then "Failures"
  else "Other".

(** The category of a message: the reducer lower-cases it first. *)
Definition classify (message : string) : string :=
  categoryOf (Js.toLowerCase message).

Definition getCategoryData (anomalies : list LogEntry)
  : list Category.point :=
  let categories :=
    fold_left (fun acc log =>
                 let msg := Js.toLowerCase (message log) in
                 let category := categoryOf msg in
                 Js.set acc category (Js.incr acc category))
              anomalies [] in
  map (fun '(name, value) =>
         {| Category.name := name; Category.value := value |})
      (Js.entries categories).

(** The state of the component that the click handlers read and write. *)
Record State := {
  anomalies : list LogEntry;
  filteredLogs : list LogEntry
}.

Definition setFilteredLogs (logs : list LogEntry) (st : State) : State :=
  {| anomalies := anomalies st; filteredLogs := logs |}.

Definition handleServiceClick (serviceName' : string) (st : State) : State :=
  let logs :=
    filter (fun a => String.eqb (serviceName a) serviceName') (anomalies st) in
  setFilteredLogs logs st.

(** The predicate that [handleCategoryClick] filters with: its [if]
    statements, each returning when its test holds. *)
Definition inCategory (category : string) (a : LogEntry) : bool :=
  let msg := Js.toLowerCase (message a) in
  if String.eqb category "Errors"
     && (Js.includes msg "error" || Js.includes msg "exception") then true
  else if String.eqb category "Timeouts" && Js.includes msg "timeout"
       then true
  else if String.eqb category "Connection Issues"
          && (Js.includes msg "connection" || Js.includes msg "unavailable")
       then true
  else if String.eqb category "Failures" && Js.includes msg "fail" then true
  else if String.eqb category "Other" then
    negb (Js.includes msg "error") && negb (Js.includes msg "exception")
    && negb (Js.includes msg "timeout") && negb (Js.includes msg "connection")
    && negb (Js.includes msg "unavailable") && negb (Js.includes msg "fail")
  else false.

Definition handleCategoryClick (category : string) (st : State) : State :=
  let logs := filter (inCategory category) (anomalies st) in
  setFilteredLogs logs st.
End Visualizations.

(** ** A host: the en-US locale in the UTC time zone

    The dates of the proleptic Gregorian calendar, as ECMAScript's [Date]
    computes them from a time value, printed month/day/year as the en-US
    locale does and read back as the start of that day.  The model covers
    the time values from year 100 (engines read a year of one or two digits
    as a year of the 20th or 21st century) to the end of the range of [Date]
    (8.64e15 ms after the epoch) and the strings it prints; any other time
    value is given the string of an invalid date, any other string no
    time. *)
Module EnUsUtc.
Local Open Scope Z_scope.

Definition msPerDay : Z := 86400000.

(** The start of the UTC day of a time value. *)
Definition day (t : Z) : Z := t / msPerDay * msPerDay.

(** Year, month and day of the month of a day number (days since
    1970-01-01). *)
Definition civil (z : Z) : Z * Z * Z :=
  let z := z + 719468 in
  let era := z / 146097 in
  let doe := z - era * 146097 in
  let yoe := (doe - doe / 1460 + doe / 36524 - doe / 146096) / 365 in
  let doy := doe - (365 * yoe + yoe / 4 - yoe / 100) in
  let mp := (5 * doy + 2) / 153 in
  let d := doy - (153 * mp + 2) / 5 + 1 in
  let m := if mp <? 10 then mp + 3 else mp - 9 in
  let y := yoe + era * 400 in
  (if m <=? 2 then y + 1 else y, m, d).

(** The day number of a date. *)
Definition days (y m d : Z) : Z :=
  let y := if m <=? 2 then y - 1 else y in
  let era := y / 400 in
  let yoe := y - era * 400 in
  let doy := (153 * (if 2 <? m then m - 3 else m + 9) + 2) / 5 + d - 1 in
  let doe := yoe * 365 + yoe / 4 - yoe / 100 + doy in
  era * 146097 + doe - 719468.

Definition decimal (n : Z) : string :=
  NilEmpty.string_of_uint (N.to_uint (Z.to_N n)).

Definition toLocaleDateString (t : Z) : string :=
  if (-59011459200000 <=? t) && (t <=? 8640000000000000) then
    let '(y, m, d) := civil (t / msPerDay) in
    (decimal m ++ "/" ++ decimal d ++ "/" ++ decimal y)%string
  else "Invalid Date"%string.

(** The fields of a string, split at the slashes. *)
Fixpoint fields (s : string) (field : string) : list string :=
  match s with
  | EmptyString => [field]
  | String c s' =>
      if Ascii.eqb c "/" then field :: fields s' EmptyString
      else fields s' (field ++ String c EmptyString)%string
  end.

Definition number (s : string) : option Z :=
  match s with
  | EmptyString => None
  | _ => option_map Z.of_N (Js.numeral s 0)
  end.

Definition getTime (s : string) : option Z :=
  match map number (fields s EmptyString) with
  | [Some m; Some d; Some y] =>
      if (1 <=? m) && (m <=? 12) && (1 <=? d) && (d <=? 31) && (100 <=? y)
      then Some (days y m d * msPerDay)
      else None
  | _ => None
  end.

Definition host : Host :=
  Build_Host toLocaleDateString getTime.
End EnUsUtc.


(** ** A host that prints the day first: the es-ES locale in the UTC time zone

    The es-ES locale prints a date day/month/year.  [Date] reads a string
    the same way whatever the locale: the first field is the month. *)
Module EsEsUtc.
Local Open Scope Z_scope.

Definition toLocaleDateString (t : Z) : string :=
  if (-59011459200000 <=? t) && (t <=? 8640000000000000) then
    let '(y, m, d) := EnUsUtc.civil (t / EnUsUtc.msPerDay) in
    (EnUsUtc.decimal d ++ "/" ++ EnUsUtc.decimal m ++ "/"
       ++ EnUsUtc.decimal y)%string
  else "Invalid Date"%string.

Definition host : Host :=
  Build_Host toLocaleDateString EnUsUtc.getTime.
End EsEsUtc.
(** ** Notions used to state the properties *)

Section Notions.
Local Open Scope string_scope.

(** The five names a category bucket can carry. *)
Definition known_categories : list string :=
  ["Errors"; "Timeouts"; "Connection Issues"; "Failures"; "Other"].

(** [x] stands somewhere before [y] in [l]. *)
Definition before {A} (x y : A) (l : list A) : Prop :=
  exists l1 l2 l3, l = (l1 ++ x :: l2 ++ y :: l3)%list.

(** A comparator that orders by an integer key, smaller keys first. *)
Definition by_key {A} (key : A -> Z) (x y : A) : option Z :=
  Some (key x - key y)%Z.

(** A key that names no member of [Object.prototype]. *)
Definition plain (k : string) : Prop := Js.inherited k = None.

(** The number of times [k] occurs among the keys [ks]. *)
Definition occurrences (k : string) (ks : list string) : nat :=
  count_occ string_dec ks k.

(** The distinct keys of [ks], each at the place of its first occurrence. *)
Definition firsts (ks : list string) : list string :=
  rev (nodup string_dec (rev ks)).

(** [a] is met in [ks] before [b] is met for the first time. *)
Definition first_before (a b : string) (ks : list string) : Prop :=
  exists pre post,
  ks = (pre ++ a :: post)%list /\ ~ In a pre /\ ~ In b pre /\ a <> b.

(** [10 ^ length s], the weight of a digit put in front of the numeral
    [s]. *)
Definition scale (s : string) : N := (10 ^ N.of_nat (String.length s))%N.

(** The order in which [Object.entries] lists two keys of an object whose
    keys were created in the order of [ks]. *)
Definition entries_before (a b : string) (ks : list string) : Prop :=
  match Js.array_index a, Js.array_index b with
  | Some i, Some j => (i < j)%N
  | Some _, None => True
  | None, Some _ => False
  | None, None => first_before a b ks
  end.

(** What a reducer builds from the keys of the records, one after the
    other: [acc[k] = (acc[k] || 0) + 1]. *)
Definition group (ks : list string) : Js.object :=
  fold_left (fun acc k => Js.set acc k (Js.incr acc k)) ks [].

(** The keys the reducer of [getCategoryData] meets. *)
Definition categories_of (anomalies : list LogEntry) : list string :=
  map (fun a => classify (message a)) anomalies.

(** A record of the given service, score and message, for the examples. *)
Definition entry (service : string) (s : float) (msg : string) : LogEntry :=
  {| id := ""; serviceName := service; message := msg;
   timestamp := 0; isAnomaly := true; score := s |}.

(** The number a count stands for (0 for a count that is no number). *)
Definition number (v : Js.value) : Z :=
  match Js.toNumber v with
  | Some z => z
  | None => 0
  end.

(** An entry of the grouping object as a bucket of the service chart, and
    back. *)
Definition bucket (e : string * Js.value) : Service.point :=
  {| Service.service := fst e; Service.count := snd e |}.

Definition unbucket (p : Service.point) : string * Js.value :=
  (Service.service p, Service.count p).

(** The object that the reducer of [getServiceData] builds from plain
    service names, and the sorted buckets before they are cut to five. *)
Definition tally (ks : list string) : Js.object :=
  map (fun k => (k, Js.Num (occurrences k ks))) (firsts ks).

Definition ranked (ks : list string) : list Service.point :=
  Js.sort (by_key (fun p => (- number (Service.count p))%Z))
          (map bucket (Js.entries (tally ks))).

(** The date string of a record, and the keys the reducer of
    [getTimeSeriesData] meets. *)
Definition date_of (host : Host) (a : LogEntry) : string :=
  toLocaleDateString host (timestamp a).

Definition dates_of (host : Host) (anomalies : list LogEntry) : list string :=
  map (date_of host) anomalies.

(** The time the host reads back from the date of a point (0 when it reads
    none). *)
Definition time_of (host : Host) (p : TimeSeries.point) : Z :=
  match getTime host (TimeSeries.date p) with
  | Some t => t
  | None => 0
  end.

Definition point (e : string * Js.value) : TimeSeries.point :=
  {| TimeSeries.date := fst e; TimeSeries.count := snd e |}.

Definition unpoint (p : TimeSeries.point) : string * Js.value :=
  (TimeSeries.date p, TimeSeries.count p).

(** The points of the time series, sorted, before the cut to the last 10. *)
Definition series (host : Host) (ks : list string) : list TimeSeries.point :=
  Js.sort (by_key (time_of host)) (map point (Js.entries (tally ks))).

(** A host whose [Date] reads back, from the date string of each record, the
    start [day t] of the calendar day of its timestamp [t]: the string has a
    time, two records of one day have one string, and a later record is not
    of an earlier day.  Date strings are no names of members of
    [Object.prototype]. *)
Record chronological (host : Host) (day : Z -> Z) (anomalies : list LogEntry)
  : Prop := {
  dates_plain : Forall plain (dates_of host anomalies);
  dates_read : forall a, In a anomalies ->
    getTime host (date_of host a) = Some (day (timestamp a));
  dates_same : forall a b, In a anomalies -> In b anomalies ->
    day (timestamp a) = day (timestamp b) -> date_of host a = date_of host b;
  dates_ordered : forall a b, In a anomalies -> In b anomalies ->
    (timestamp a <= timestamp b)%Z ->
    (day (timestamp a) <= day (timestamp b))%Z
}.

(** The tier of each record, in order. *)
Definition tiers (records : list LogEntry) : list SeverityLevel :=
  map (fun r => level (getSeverity (score r) (isAnomaly r))) records.
End Notions.

Arguments dates_plain {host day anomalies}.
Arguments dates_read {host day anomalies}.
Arguments dates_same {host day anomalies}.
Arguments dates_ordered {host day anomalies}.

(** Twelve records on eleven days of November 2023, not in order of time. *)
Definition november : list LogEntry :=
  map (fun t => {| id := EmptyString; serviceName := "api"%string;
                   message := "timeout"%string; timestamp := t;
                   isAnomaly := true; score := (-0.3)%float |})
      [ 1700000000000; 1700300000000; 1699500000000; 1700900000000;
        1700100000000; 1700001000000; 1700500000000; 1699700000000;
        1700700000000; 1699600000000; 1700200000000; 1700400000000 ]%Z.



(** A record of the given time, for the examples, and the first instant of
    a day of January 2023 and of 1 February 2023 (UTC). *)
Definition at_time (t : Z) : LogEntry :=
  {| id := EmptyString; serviceName := "api"%string;
     message := "timeout"%string; timestamp := t;
     isAnomaly := true; score := (-0.3)%float |}.

Definition january (d : Z) : Z := (1672531200000 + (d - 1) * 86400000)%Z.

Definition february_1 : Z := 1675209600000%Z.
(** ** Binary64 arithmetic, on integers

    The properties of [convertToTenScale] rest on how the engine rounds.
    A finite binary64 number is [(-1)^s * m * 2^e] with [e >= -1074]; all the
    numbers the function meets are integer multiples of [2 ^ lsb], so their
    exact values are handled as integers, in units of [2 ^ lsb]. *)
Module Binary64.
Local Open Scope Z_scope.

(** The exponent of the unit of the scaled values. *)
Definition lsb : Z := -1200.

(** The scaled value of 1. *)
Definition V1 : Z := 2 ^ (- lsb).

(** The scaled value of a decoded number (0 for NaN and the infinities,
    which [finite] tells apart). *)
Definition scaled (f : spec_float) : Z :=
  match f with
  | S754_finite s m e => cond_Zopp s (Zpos m * 2 ^ (e - lsb))
  | _ => 0
  end.

Definition finite (f : spec_float) : bool :=
  match f with
  | S754_zero _ | S754_finite _ _ _ => true
  | _ => false
  end.

Definition value (x : float) : Z := scaled (Prim2SF x).

(** [represents f V]: [f] is a zero or a finite number of exponent at least
    -1074, of scaled value [V]. *)
Inductive represents : spec_float -> Z -> Prop :=
| represents_zero (s : bool) : represents (S754_zero s) 0
| represents_finite (s : bool) (m : positive) (e : Z) :
    -1074 <= e ->
    represents (S754_finite s m e) (cond_Zopp s (Zpos m * 2 ^ (e - lsb))).

(** [m / 2 ^ n] rounded to the nearest integer, to the even one on a tie. *)
Definition rne (m n : Z) : Z :=
  let q := m / 2 ^ n in
  let rem := m mod 2 ^ n in
  let half := 2 ^ (n - 1) in
  if rem <? half then q
  else if rem =? half then (if Z.even q then q else q + 1)
  else q + 1.

(** The number of low bits of a positive scaled value that binary64 cannot
    keep: all but the 53 leading ones, and all those below [2 ^ -1074]. *)
Definition ulp_shift (V : Z) : Z := Z.max (Z.log2 V - 52) (-1074 - lsb).

(** Rounding to binary64, to nearest with ties to even: of a positive scaled
    value, and of one that may be zero. *)
Definition RN (V : Z) : Z := rne V (ulp_shift V) * 2 ^ ulp_shift V.

Definition RN0 (V : Z) : Z := if V <=? 0 then 0 else RN V.

(** The record that [SpecFloat.shr] computes when it shifts a mantissa [m]
    by [n] places: the quotient, the round bit and the sticky bit, read from
    the remainder of the division by [2 ^ n]. *)
Definition shifted (m n : Z) : shr_record :=
  {| shr_m := m / 2 ^ n;
     shr_r := 2 ^ (n - 1) <=? m mod 2 ^ n;
     shr_s := negb ((m mod 2 ^ n =? 0) || (m mod 2 ^ n =? 2 ^ (n - 1))) |}.

(** The last step of [SpecFloat.binary_round_aux]. *)
Definition finish (s : bool) (st : shr_record * Z) : spec_float :=
  let '(mrs, e) := st in
  match shr_m mrs with
  | Z0 => S754_zero s
  | Zpos m => if e <=? emax - prec then S754_finite s m e else S754_infinity s
  | Zneg _ => S754_nan
  end.

(** The four operations of [convertToTenScale] on scaled values: [x + 1],
    [a * 4.5] (4.5 is 5066549580791808 * 2^-50), [10 - b] and [t * 10]
    (10 is 5629499534213120 * 2^-49), each rounded. *)
Definition stepA (V : Z) : Z := RN0 (V + V1).
Definition stepB (V : Z) : Z := RN0 (V * 5066549580791808 / 2 ^ 50).
Definition stepC (V : Z) : Z := RN0 (10 * V1 - V).
Definition stepD (V : Z) : Z := RN0 (V * 5629499534213120 / 2 ^ 49).
Definition tenfold_value (V : Z) : Z := stepD (stepC (stepB (stepA V))).

(** [floor (V / V1 + 1/2)], the integer that [Math.round] returns for a
    positive scaled value. *)
Definition nearest (V : Z) : Z := (2 * V + V1) / (2 * V1).

(** The integers from 10 to 100. *)
Definition decimals : list Z := map Z.of_nat (seq 10 91).
End Binary64.

(** A score from -1 to 1. *)
Definition in_range (x : float) : Prop :=
  (-1 <=? x)%float = true /\ (x <=? 1)%float = true.

(** What [convertToTenScale] rounds for a score that the clamp leaves as it
    is: [tenScale * 10]. *)
Definition tenfold (x : float) : float := ((10 - (x + 1) * 4.5) * 10)%float.

(** The exact value of a binary64 number, a rational. *)
Definition exact (x : float) : Q :=
  match Prim2SF x with
  | S754_finite s m e =>
      match e with
      | Zneg p => cond_Zopp s (Zpos m) # (2 ^ p)%positive
      | _ => inject_Z (cond_Zopp s (Zpos m) * 2 ^ e)
      end
  | _ => 0%Q
  end.



(** ** Promises, as far as the pages await them *)

Module Promise.

(** A promise that has settled. *)
Inductive settled (A : Type) : Type :=
  | resolved (data : A)
  | rejected.

Arguments resolved {A} data.
Arguments rejected {A}.

(** [Promise.all([p, q])]: the two results when both promises resolve, a
    rejection as soon as one rejects. *)
Definition all {A B} (p : settled A) (q : settled B) : settled (A * B) :=
  match p, q with
  | resolved a, resolved b => resolved (a, b)
  | _, _ => rejected
  end.
End Promise.

(** ** [Set], as far as the pages count with it *)

Module JsSet.

(** [s.add(x)]: a set lists its members in order of insertion. *)
Definition add (s : list string) (x : string) : list string :=
  if in_dec string_dec x s then s else (s ++ [x])%list.

(** [new Set(xs)] and [s.size]. *)
Definition of_array (xs : list string) : list string := fold_left add xs [].

Definition size (s : list string) : nat := List.length s.
End JsSet.

(** ** The host's clock

    The strings the components print for a time value:
    [new Date(ts).toLocaleString('en-US', options)], with the options of
    [formatTimestamp], and [new Date(ts).toLocaleTimeString()]. *)
Record Clock := {
  toLocaleString : Z -> string;
  toLocaleTimeString : Z -> string
}.

(** ** components/LogDetailModal.tsx *)

Module Modal.

(** The rows of the dialog: ID, Service, Timestamp, Severity Level (label
    and colours of the tier), Anomaly Score (out of 10) and Message. *)
Record rows := {
  ID : string;
  Service : string;
  Timestamp : string;
  SeverityBadge : Severity;
  AnomalyScore : float;
  Message : string
}.
End Modal.

Section LogDetailModal.
Variable clock : Clock.

Definition formatTimestamp (ts : Z) : string := toLocaleString clock ts.

(** [LogDetailModal({ log, onClose })]: nothing without a log. *)
Definition LogDetailModal (log : option LogEntry) : option Modal.rows :=
  match log with
  | None => None
  | Some log =>
    Some {| Modal.ID := id log;
            Modal.Service := serviceName log;
            Modal.Timestamp := formatTimestamp (timestamp log);
            Modal.SeverityBadge := getSeverity (score log) (isAnomaly log);
            Modal.AnomalyScore := convertToTenScale (score log);
            Modal.Message := message log |}
  end.
End LogDetailModal.

(** ** pages/Visualizations.tsx: the component around the aggregators *)

Module Visualizations.

(** The five [useState] hooks; [page] holds the two that the click handlers
    read and write, [anomalies] and [filteredLogs]. *)
Record Component := {
  page : State;
  loading : bool;
  error : option string;
  selectedLog : option LogEntry
}.

Definition initial : Component :=
  {| page := {| anomalies := []; filteredLogs := [] |};
     loading := true; error := None; selectedLog := None |}.

Definition onPage (f : State -> State) (c : Component) : Component :=
  {| page := f (page c); loading := loading c; error := error c;
     selectedLog := selectedLog c |}.

Definition setAnomalies (data : list LogEntry) : Component -> Component :=
  onPage (fun st => {| anomalies := data; filteredLogs := filteredLogs st |}).

Definition setLoading (b : bool) (c : Component) : Component :=
  {| page := page c; loading := b; error := error c;
     selectedLog := selectedLog c |}.

Definition setError (e : option string) (c : Component) : Component :=
  {| page := page c; loading := loading c; error := e;
     selectedLog := selectedLog c |}.

Definition setSelectedLog (l : option LogEntry) (c : Component) : Component :=
  {| page := page c; loading := loading c; error := error c;
     selectedLog := l |}.

(** [fetchAnomalies()], given how [api.getAnomalies()] settles: the state
    once the function has run to its end ([try], [catch], [finally]). *)
Definition fetchAnomalies (response : Promise.settled (list LogEntry))
  (c : Component) : Component :=
  let c := setLoading true c in
  let c :=
    match response with
    | Promise.resolved data => setError None (setAnomalies data c)
    | Promise.rejected =>
      setError
        (Some "Failed to fetch anomalies. Make sure the backend is running."%string)
        c
    end in
  setLoading false c.

(** The handlers the charts, the cards and the dialog are given.  A click on
    the bar chart carries the bucket of the active bar, if there is one. *)
Definition onBarClick (activePayload : option Service.point)
  : Component -> Component :=
  match activePayload with
  | Some payload => onPage (handleServiceClick (Service.service payload))
  | None => fun c => c
  end.

Definition onPieClick (data : Category.point) : Component -> Component :=
  onPage (handleCategoryClick (Category.name data)).

Definition onCardClick (log : LogEntry) : Component -> Component :=
  setSelectedLog (Some log).

Definition onClose : Component -> Component := setSelectedLog None.

Definition COLORS : list string :=
  ["#ffb86b"; "#ff7c93"; "#8ea7c0"; "#a78bfa"; "#34d399"]%string.

(** [COLORS[index % COLORS.length]], the fill of a cell of the pie. *)
Definition fill (index : nat) : option string :=
  nth_error COLORS (index mod List.length COLORS).

(** A card of the list of filtered logs. *)
Record card := {
  log : LogEntry;
  time : string;
  pill : Severity
}.

(** What the dashboard shows: the two numbers of the stats row, the data of
    the three charts with the fills of the cells of the pie, the list of
    filtered logs (its count and its cards) when there are any, and the
    dialog. *)
Record dashboard := {
  totalAnomalies : nat;
  affectedServices : nat;
  timeSeriesData : list TimeSeries.point;
  categoryData : list Category.point;
  cells : list (option string);
  serviceData : list Service.point;
  filtered : option (nat * list card);
  modal : option Modal.rows
}.

Inductive view :=
  | LoadingState
  | ErrorState (message : string)
  | EmptyState
  | Dashboard (d : dashboard).

Section Render.
Variable host : Host.
Variable clock : Clock.

Definition cardOf (l : LogEntry) : card :=
  {| log := l;
     time := toLocaleTimeString clock (timestamp l);
     pill := getSeverity (score l) (isAnomaly l) |}.

Definition dashboardOf (c : Component) : dashboard :=
  let anomalies := anomalies (page c) in
  let filteredLogs := filteredLogs (page c) in
  let categoryData := getCategoryData anomalies in
  {| totalAnomalies := List.length anomalies;
     affectedServices :=
       JsSet.size (JsSet.of_array (map serviceName anomalies));
     timeSeriesData := getTimeSeriesData host anomalies;
     categoryData := categoryData;
     cells := map fill (seq 0 (List.length categoryData));
     serviceData := getServiceData anomalies;
     filtered :=
       if 0 <? List.length filteredLogs
       then Some (List.length filteredLogs,
                  map cardOf (Js.slice_first 10 filteredLogs))
       else None;
     modal := LogDetailModal clock (selectedLog c) |}.

(** What the component returns: the three early returns, then the
    dashboard.  An error that is the empty string counts as none. *)
Definition render (c : Component) : view :=
  if loading c then LoadingState
  else
    match error c with
    | Some (String a e) => ErrorState (String a e)
    | _ =>
      if List.length (anomalies (page c)) =? 0 then EmptyState
      else Dashboard (dashboardOf c)
    end.
End Render.
End Visualizations.

(** ** pages/About.tsx *)

Module About.

Record Stats := {
  totalLogs : nat;
  totalAnomalies : nat;
  services : nat
}.

(** The four [useState] hooks. *)
Record Component := {
  stats : Stats;
  recentLogs : list LogEntry;
  loading : bool;
  selectedLog : option LogEntry
}.

Definition initial : Component :=
  {| stats := {| totalLogs := 0; totalAnomalies := 0; services := 0 |};
     recentLogs := []; loading := true; selectedLog := None |}.

Definition setStats (s : Stats) (c : Component) : Component :=
  {| stats := s; recentLogs := recentLogs c; loading := loading c;
     selectedLog := selectedLog c |}.

Definition setRecentLogs (l : list LogEntry) (c : Component) : Component :=
  {| stats := stats c; recentLogs := l; loading := loading c;
     selectedLog := selectedLog c |}.

Definition setLoading (b : bool) (c : Component) : Component :=
  {| stats := stats c; recentLogs := recentLogs c; loading := b;
     selectedLog := selectedLog c |}.

Definition setSelectedLog (l : option LogEntry) (c : Component) : Component :=
  {| stats := stats c; recentLogs := recentLogs c; loading := loading c;
     selectedLog := l |}.

(** [fetchStats()], given how [api.getLogs({ limit: 10 })] and
    [api.getAnomalies()] settle: the state once the function has run to its
    end.  A rejection is logged and changes nothing but [loading]. *)
Definition fetchStats (getLogs getAnomalies : Promise.settled (list LogEntry))
  (c : Component) : Component :=
  let c := setLoading true c in
  let c :=
    match Promise.all getLogs getAnomalies with
    | Promise.resolved (logs, anomalies) =>
      let uniqueServices := JsSet.of_array (map serviceName logs) in
      let c :=
        setStats {| totalLogs := List.length logs;
                    totalAnomalies := List.length anomalies;
                    services := JsSet.size uniqueServices |} c in
      setRecentLogs (Js.slice_first 5 logs) c
    | Promise.rejected => c
    end in
  setLoading false c.

(** A line of the list of recent logs: service, message, and whether it
    carries the anomaly mark. *)
Record item := {
  logService : string;
  logMessage : string;
  anomalyBadge : bool
}.

(** What the page shows besides its fixed text: the grid of the three
    numbers, the list of recent logs and the dialog. *)
Record view := {
  statsGrid : option Stats;
  recentActivity : option (list item);
  modal : option Modal.rows
}.

Section Render.
Variable clock : Clock.

Definition itemOf (l : LogEntry) : item :=
  {| logService := serviceName l; logMessage := message l;
     anomalyBadge := isAnomaly l |}.

Definition render (c : Component) : view :=
  {| statsGrid :=
       if negb (loading c) && (0 <? totalLogs (stats c))
       then Some (stats c) else None;
     recentActivity :=
       if 0 <? List.length (recentLogs c)
       then Some (map itemOf (recentLogs c)) else None;
     modal := LogDetailModal clock (selectedLog c) |}.
End Render.
End About.

(** ** Further notions: what a reducer stores under any key *)

Section Stored.
Local Open Scope string_scope.

(** The string of [n] digits 1. *)
Fixpoint ones (n : nat) : string :=
  match n with
  | O => ""
  | S n' => ones n' ++ "1"
  end.

(** What a reducer has stored under [k] after [n] records of key [k], for
    [n] at least 1: their number, or, when [k] names a member of
    [Object.prototype], the text of that member followed by [n] digits 1. *)
Definition stored (k : string) (n : nat) : Js.value :=
  match Js.inherited k with
  | None => Js.Num n
  | Some text => Js.Str (text ++ ones n)
  end.

(** The keys a reducer creates: the distinct keys it meets, but never
    [__proto__]. *)
Definition kept (ks : list string) : list string :=
  filter (fun k => negb (String.eqb k "__proto__")) (firsts ks).

(** The number a count stands for on a chart axis (none for a string). *)
Definition amount (v : Js.value) : nat :=
  match v with
  | Js.Num n => n
  | Js.Str _ => 0
  end.
End Stored.
(** * Part II: properties *)

(** ** Order of binary64 values

    [x <? y] on primitive floats is [SFltb] on their decoded form
    ([FloatAxioms.ltb_spec]); on decoded floats the comparison is
    lexicographic in sign, exponent and mantissa, hence transitive. *)

Lemma SFltb_trans (a b c : spec_float) :
  SFltb a b = true -> SFltb b c = true -> SFltb a c = true.
Proof.
  unfold SFltb, SFcompare.
  destruct a as [sa|sa| |sa ma ea], b as [sb|sb| |sb mb eb],
           c as [sc|sc| |sc mc ec];
    try destruct sa; try destruct sb; try destruct sc;
    try discriminate; try reflexivity;
    rewrite ?Pos.compare_cont_spec; simpl;
    destruct (Z.compare_spec ea eb), (Z.compare_spec eb ec),
             (Z.compare_spec ea ec);
    try discriminate; try reflexivity; try lia; subst;
    destruct (Pos.compare_spec ma mb), (Pos.compare_spec mb mc),
             (Pos.compare_spec ma mc);
    simpl; try discriminate; try reflexivity; lia.
Qed.

Lemma ltb_trans (x y z : float) :
  (x <? y)%float = true -> (y <? z)%float = true -> (x <? z)%float = true.
Proof. rewrite !FloatAxioms.ltb_spec. apply SFltb_trans. Qed.

(** A threshold test [_ <? c] that fails on [s1] fails on every larger
    score. *)
Lemma below_threshold (s1 s2 c : float) :
  (s1 <? s2)%float = true -> (s1 <? c)%float = false -> (s2 <? c)%float = false.
Proof.
  intros H12 H1. destruct (s2 <? c)%float eqn:H2; [|reflexivity].
  rewrite (ltb_trans _ _ _ H12 H2) in H1. discriminate.
Qed.

(** ** The severity classifier *)

(** C3. The classifier tries [score < -0.5], [score < -0.2], [score < -0.05]
    and [score < 0] in this order and the first test that holds decides the
    tier, [normal] when none does; a score that sits on a boundary falls in
    the less severe tier: -0.5 is severe, -0.2 is moderate and 0 is normal,
    whatever the anomaly flag. *)
Theorem getSeverity_thresholds :
  (forall score flag,
      level (getSeverity score flag) =
      if (score <? -0.5)%float then critical
      else if (score <? -0.2)%float then severe
      else if (score <? -0.05)%float then moderate
      else if (score <? 0)%float then low
      else normal) /\
  (forall flag, level (getSeverity (-0.5)%float flag) = severe) /\
  (forall flag, level (getSeverity (-0.2)%float flag) = moderate) /\
  (forall flag, level (getSeverity 0%float flag) = normal).
Proof.
  split; [|repeat split; intros; reflexivity].
  intros score flag. unfold getSeverity.
  destruct (score <? -0.5)%float; [reflexivity|].
  destruct (score <? -0.2)%float; [reflexivity|].
  destruct (score <? -0.05)%float; [reflexivity|].
  destruct (score <? 0)%float; reflexivity.
Qed.

(* Decides a comparison of ranks once the tests left in the goal are split. *)
Ltac tiers :=
  repeat match goal with
         | |- context [if ?c then _ else _] => destruct c
         end;
  simpl; lia.

(** C8. Tiers are monotone in the score: when [s1 < s2] the tier of [s1] is
    at least as severe as the tier of [s2], for the order
    critical > severe > moderate > low > normal. *)
Theorem getSeverity_monotone (s1 s2 : float) (f1 f2 : bool) :
  (s1 <? s2)%float = true ->
  at_least_as_severe (level (getSeverity s1 f1)) (level (getSeverity s2 f2)).
Proof.
  intros H. unfold at_least_as_severe, getSeverity.
  destruct (s1 <? -0.5)%float eqn:E1; [tiers|].
  rewrite (below_threshold _ _ _ H E1).
  destruct (s1 <? -0.2)%float eqn:E2; [tiers|].
  rewrite (below_threshold _ _ _ H E2).
  destruct (s1 <? -0.05)%float eqn:E3; [tiers|].
  rewrite (below_threshold _ _ _ H E3).
  destruct (s1 <? 0)%float eqn:E4; [tiers|].
  rewrite (below_threshold _ _ _ H E4). tiers.
Qed.

Lemma getSeverity_monotone_witness :
  (-0.6 <? -0.1)%float = true /\
  at_least_as_severe (level (getSeverity (-0.6)%float true))
                     (level (getSeverity (-0.1)%float false)).
Proof.
  split; [reflexivity|].
  apply (getSeverity_monotone (-0.6)%float (-0.1)%float true false).
  reflexivity.
Defined.

(** ** Lists: order of elements, stable sorting *)

Section Before.
Context {A : Type}.

Lemma before_app_l (x y : A) (l l' : list A) :
  before x y l -> before x y (l ++ l').
Proof.
  intros (l1 & l2 & l3 & ->). exists l1, l2, (l3 ++ l').
  now rewrite <- !app_assoc, <- !app_comm_cons, <- app_assoc.
Qed.

Lemma before_app_r (x y : A) (l l' : list A) :
  before x y l -> before x y (l' ++ l).
Proof.
  intros (l1 & l2 & l3 & ->). exists (l' ++ l1), l2, l3.
  now rewrite <- app_assoc.
Qed.

Lemma before_cons (x y z : A) (l : list A) :
  before x y l -> before x y (z :: l).
Proof. apply (before_app_r x y l [z]). Qed.

Lemma before_head (x y : A) (l : list A) : In y l -> before x y (x :: l).
Proof.
  intros H. apply in_split in H as (l2 & l3 & ->). now exists [], l2, l3.
Qed.

Lemma before_cons_inv (x y z : A) (l : list A) :
  before x y (z :: l) -> (x = z /\ In y l) \/ before x y l.
Proof.
  intros (l1 & l2 & l3 & H). destruct l1 as [|a l1]; simpl in H.
  - injection H as -> ->. left. split; [reflexivity|].
    apply in_or_app. right. now left.
  - injection H as -> ->. right. now exists l1, l2, l3.
Qed.

Lemma before_In (x y : A) (l : list A) : before x y l -> In x l /\ In y l.
Proof.
  intros (l1 & l2 & l3 & ->). split; apply in_or_app; right.
  - now left.
  - right. apply in_or_app. right. now left.
Qed.

Lemma before_app_inv (x y : A) (l l' : list A) :
  before x y (l ++ l') ->
  before x y l \/ (In x l /\ In y l') \/ before x y l'.
Proof.
  induction l as [|z l IH]; simpl; intros H; [now right; right|].
  apply before_cons_inv in H as [[-> Hy]|H].
  - apply in_app_or in Hy as [Hy|Hy].
    + left. now apply before_head.
    + right. left. split; [now left | exact Hy].
  - destruct (IH H) as [H'|[[Hx Hy]|H']].
    + left. now apply before_cons.
    + right. left. split; [now right | exact Hy].
    + now right; right.
Qed.

Lemma before_filter_inv (P : A -> bool) (x y : A) (l : list A) :
  before x y (filter P l) -> before x y l.
Proof.
  induction l as [|z l IH]; simpl; intros H.
  - destruct H as (l1 & l2 & l3 & H). now destruct l1.
  - destruct (P z).
    + apply before_cons_inv in H as [[-> Hy]|H].
      * apply before_head. apply filter_In in Hy. tauto.
      * apply before_cons. auto.
    + apply before_cons. auto.
Qed.

Lemma before_filter (P : A -> bool) (x y : A) (l : list A) :
  before x y l -> P x = true -> P y = true -> before x y (filter P l).
Proof.
  intros (l1 & l2 & l3 & ->) Hx Hy.
  rewrite filter_app. simpl. rewrite Hx, filter_app. simpl. rewrite Hy.
  now exists (filter P l1), (filter P l2), (filter P l3).
Qed.

Lemma before_firstn (n : nat) (x y : A) (l : list A) :
  before x y (firstn n l) -> before x y l.
Proof.
  intros H. rewrite <- (firstn_skipn n l). now apply before_app_l.
Qed.


Lemma before_map {B} (f : A -> B) (x y : A) (l : list A) :
  before x y l -> before (f x) (f y) (map f l).
Proof.
  intros (l1 & l2 & l3 & ->). exists (map f l1), (map f l2), (map f l3).
  now rewrite map_app, (map_cons f x), map_app, (map_cons f y).
Qed.

Lemma before_sorted (R : A -> A -> Prop) (x y : A) (l : list A) :
  StronglySorted R l -> before x y l -> R x y.
Proof.
  intros Hs (l1 & l2 & l3 & ->). induction l1 as [|z l1 IH]; simpl in Hs.
  - apply StronglySorted_inv in Hs as [_ Hall].
    rewrite Forall_forall in Hall. apply Hall, in_or_app. right. now left.
  - apply StronglySorted_inv in Hs as [Hs _]. auto.
Qed.
End Before.

Lemma firstn_In {A} (n : nat) (x : A) (l : list A) :
  In x (firstn n l) -> In x l.
Proof.
  intros H. rewrite <- (firstn_skipn n l). apply in_or_app. now left.
Qed.


Lemma before_firstn_skipn {A} (n : nat) (x y : A) (l : list A) :
  In x (firstn n l) -> In y (skipn n l) -> before x y l.
Proof.
  intros Hx Hy. rewrite <- (firstn_skipn n l).
  apply in_split in Hx as (l1 & l2 & ->), Hy as (l3 & l4 & ->).
  exists l1, (l2 ++ l3)%list, l4. now rewrite <- !app_assoc.
Qed.

Lemma filter_none {A} (f : A -> bool) (l : list A) :
  (forall x, In x l -> f x = false) -> filter f l = [].
Proof.
  induction l as [|x l IH]; simpl; intros H; [reflexivity|].
  rewrite H by now left. apply IH. intros y Hy. apply H. now right.
Qed.

Lemma filter_all {A} (f : A -> bool) (l : list A) :
  (forall x, In x l -> f x = true) -> filter f l = l.
Proof.
  induction l as [|x l IH]; simpl; intros H; [reflexivity|].
  rewrite H by now left. f_equal. apply IH. intros y Hy. apply H. now right.
Qed.

Section SortAny.
Context {A : Type} (compareFn : A -> A -> option Z).

Lemma insert_perm (x : A) (l : list A) :
  Permutation (Js.insert compareFn x l) (x :: l).
Proof.
  induction l as [|y l IH]; simpl; [reflexivity|].
  destruct (Js.after compareFn x y); [|reflexivity].
  rewrite IH. apply perm_swap.
Qed.

Lemma sort_perm (l : list A) : Permutation (Js.sort compareFn l) l.
Proof.
  induction l as [|x l IH]; simpl; [reflexivity|].
  rewrite insert_perm. now constructor.
Qed.

Lemma sort_In (x : A) (l : list A) : In x (Js.sort compareFn l) <-> In x l.
Proof.
  split; apply Permutation_in; [|symmetry]; apply sort_perm.
Qed.

Lemma sort_length (l : list A) :
  List.length (Js.sort compareFn l) = List.length l.
Proof. apply Permutation_length, sort_perm. Qed.
End SortAny.

Lemma insert_ext {A} (c1 c2 : A -> A -> option Z) (x : A) (s : list A) :
  (forall y, In y s -> Js.after c1 x y = Js.after c2 x y) ->
  Js.insert c1 x s = Js.insert c2 x s.
Proof.
  induction s as [|y s IH]; intros H; simpl; [reflexivity|].
  rewrite H by now left.
  destruct (Js.after c2 x y); [|reflexivity].
  f_equal. apply IH. intros z Hz. apply H. now right.
Qed.

(** Two comparators that order the elements of a list alike sort it alike. *)
Lemma sort_ext {A} (c1 c2 : A -> A -> option Z) (l : list A) :
  (forall x y, In x l -> In y l -> Js.after c1 x y = Js.after c2 x y) ->
  Js.sort c1 l = Js.sort c2 l.
Proof.
  induction l as [|x l IH]; intros H; simpl; [reflexivity|].
  rewrite IH by (intros; apply H; now right).
  apply insert_ext. intros y Hy. apply H; [now left|].
  right. now apply sort_In in Hy.
Qed.

(** Sorting by an integer key, smaller keys first. *)
Section SortByKey.
Context {A : Type} (key : A -> Z).

Lemma after_by_key (x y : A) : Js.after (by_key key) x y = (key y <? key x)%Z.
Proof.
  unfold Js.after, by_key.
  destruct (Z.ltb_spec 0 (key x - key y)), (Z.ltb_spec (key y) (key x));
  lia || reflexivity.
Qed.

Lemma insert_sorted (x : A) (l : list A) :
  StronglySorted (fun a b => (key a <= key b)%Z) l ->
  StronglySorted (fun a b => (key a <= key b)%Z) (Js.insert (by_key key) x l).
Proof.
  induction l as [|y l IH]; simpl; intros Hs.
  - constructor; [constructor | constructor].
  - rewrite after_by_key. apply StronglySorted_inv in Hs as [Hs Hall].
    destruct (Z.ltb_spec (key y) (key x)).
    + constructor; [auto|].
      rewrite Forall_forall in *. intros z Hz.
      apply (Permutation_in _ (insert_perm (by_key key) x l)) in Hz.
      destruct Hz as [<-|Hz]; [lia | auto].
    + constructor; [constructor; assumption|].
      constructor; [assumption|].
      rewrite Forall_forall in *. intros z Hz. specialize (Hall z Hz). lia.
Qed.

Lemma sort_sorted (l : list A) :
  StronglySorted (fun a b => (key a <= key b)%Z) (Js.sort (by_key key) l).
Proof.
  induction l as [|x l IH]; simpl; [constructor | now apply insert_sorted].
Qed.

Lemma insert_filter (r : Z) (x : A) (l : list A) :
  filter (fun a => (key a =? r)%Z) (Js.insert (by_key key) x l) =
  filter (fun a => (key a =? r)%Z) (x :: l).
Proof.
  induction l as [|y l IH]; [reflexivity|].
  simpl Js.insert. rewrite after_by_key.
  destruct (Z.ltb_spec (key y) (key x)); [|reflexivity].
  simpl in *. rewrite IH.
  destruct (Z.eqb_spec (key x) r), (Z.eqb_spec (key y) r);
  reflexivity || lia.
Qed.

(** Stability: the elements of one key keep their order. *)
Lemma sort_stable (r : Z) (l : list A) :
  filter (fun a => (key a =? r)%Z) (Js.sort (by_key key) l) =
  filter (fun a => (key a =? r)%Z) l.
Proof.
  induction l as [|x l IH]; [reflexivity|].
  simpl Js.sort. rewrite insert_filter. simpl. now rewrite IH.
Qed.

Lemma sort_before (x y : A) (l : list A) :
  before x y (Js.sort (by_key key) l) ->
  (key x < key y)%Z \/ (key x = key y /\ before x y l).
Proof.
  intros H. pose proof (before_sorted _ x y _ (sort_sorted l) H) as Hle.
  simpl in Hle.
  destruct (Z.eq_dec (key x) (key y)) as [E|]; [right | left; lia].
  split; [exact E|].
  apply (before_filter_inv (fun a => (key a =? key x)%Z)).
  rewrite <- sort_stable. apply before_filter; [exact H | |].
  - apply Z.eqb_refl.
  - apply Z.eqb_eq. now symmetry.
Qed.
End SortByKey.

(** ** The category rules *)

Section Categories.
Local Open Scope string_scope.

Lemma categoryOf_known (msg : string) : In (categoryOf msg) known_categories.
Proof.
  unfold categoryOf, known_categories.
  repeat match goal with
         | |- context [if ?c then _ else _] => destruct c
         end; simpl; auto 6.
Qed.

Lemma lower_idempotent (c : ascii) : Js.lower (Js.lower c) = Js.lower c.
Proof.
  destruct c as [[] [] [] [] [] [] [] []]; reflexivity.
Qed.

Lemma toLowerCase_idempotent (s : string) :
  Js.toLowerCase (Js.toLowerCase s) = Js.toLowerCase s.
Proof.
  induction s as [|c s IH]; simpl; [reflexivity|].
  now rewrite lower_idempotent, IH.
Qed.

(** C5. Classification is a function defined on every message; it looks for
    the keywords in the lower-cased message and the first rule that matches
    decides: error or exception gives Errors, else timeout gives Timeouts,
    else connection or unavailable gives Connection Issues, else fail gives
    Failures, else Other.  A message with both "error" and "connection" is
    Errors and not Connection Issues; "connection error occurred" is Errors
    and "random informational text" is Other. *)
Theorem classify_priority :
  (forall m, In (classify m) known_categories) /\
  (forall m, classify (Js.toLowerCase m) = classify m) /\
  (forall m,
    let msg := Js.toLowerCase m in
    classify m =
    if Js.includes msg "error" || Js.includes msg "exception" then "Errors"
    else if Js.includes msg "timeout" then "Timeouts"
    else if Js.includes msg "connection" || Js.includes msg "unavailable"
         then "Connection Issues"
    else if Js.includes msg "fail" then "Failures"
    else "Other") /\
  (forall m,
    Js.includes (Js.toLowerCase m) "error" = true ->
    Js.includes (Js.toLowerCase m) "connection" = true ->
    classify m = "Errors" /\ classify m <> "Connection Issues") /\
  (forall m,
    Js.includes (Js.toLowerCase m) "error" = false ->
    Js.includes (Js.toLowerCase m) "exception" = false ->
    Js.includes (Js.toLowerCase m) "timeout" = false ->
    Js.includes (Js.toLowerCase m) "connection" = false ->
    Js.includes (Js.toLowerCase m) "unavailable" = false ->
    Js.includes (Js.toLowerCase m) "fail" = false ->
    classify m = "Other") /\
  classify "connection error occurred" = "Errors" /\
  classify "Connection ERROR occurred" = "Errors" /\
  classify "random informational text" = "Other".
Proof.
  split; [intros m; apply categoryOf_known|].
  split; [intros m; unfold classify; now rewrite toLowerCase_idempotent|].
  split; [reflexivity|].
  split.
  { intros m He Hc. unfold classify, categoryOf. rewrite He. simpl.
  split; [reflexivity | discriminate]. }
  split.
  { intros m H1 H2 H3 H4 H5 H6. unfold classify, categoryOf.
  now rewrite H1, H2, H3, H4, H5, H6. }
  repeat split; reflexivity.
Qed.
End Categories.

(** ** What a reducer builds *)

Section Grouping.
Local Open Scope string_scope.

Lemma plain_not_proto (k : string) : plain k -> String.eqb k "__proto__" = false.
Proof.
  intros H. destruct (String.eqb_spec k "__proto__") as [->|]; [|reflexivity].
  discriminate H.
Qed.

Lemma firsts_snoc (ks : list string) (k : string) :
  firsts (ks ++ [k]) = if in_dec string_dec k ks then firsts ks
                     else (firsts ks ++ [k])%list.
Proof.
  unfold firsts. rewrite rev_app_distr. simpl.
  destruct (in_dec string_dec k (rev ks)) as [Hin|Hin],
           (in_dec string_dec k ks) as [Hin'|Hin']; try reflexivity.
  - apply in_rev in Hin. contradiction.
  - apply in_rev in Hin'. contradiction.
Qed.

Lemma firsts_In (k : string) (ks : list string) : In k (firsts ks) <-> In k ks.
Proof.
  unfold firsts. rewrite <- in_rev, nodup_In, <- in_rev. reflexivity.
Qed.

Lemma firsts_NoDup (ks : list string) : NoDup (firsts ks).
Proof. apply NoDup_rev, NoDup_nodup. Qed.

Lemma own_map_In (f : string -> Js.value) (ks : list string) (k : string) :
  In k ks -> Js.own (map (fun k' => (k', f k')) ks) k = Some (f k).
Proof.
  induction ks as [|k0 ks IH]; simpl; [contradiction|].
  intros H. destruct (String.eqb_spec k0 k) as [->|Hne]; [reflexivity|].
  destruct H as [H|H]; [contradiction | auto].
Qed.

Lemma own_map_notin (f : string -> Js.value) (ks : list string) (k : string) :
  ~ In k ks -> Js.own (map (fun k' => (k', f k')) ks) k = None.
Proof.
  induction ks as [|k0 ks IH]; simpl; [reflexivity|].
  intros H. destruct (String.eqb_spec k0 k) as [->|Hne]; [tauto|].
  apply IH. tauto.
Qed.

Lemma replace_map (f g : string -> Js.value) (ks : list string) (k : string) :
  NoDup ks ->
  (forall k', In k' ks -> k' <> k -> g k' = f k') ->
  Js.replace (map (fun k' => (k', f k')) ks) k (g k) =
  map (fun k' => (k', g k')) ks.
Proof.
  induction ks as [|k0 ks IH]; simpl; intros Hnd Hg; [reflexivity|].
  apply NoDup_cons_iff in Hnd as [Hk0 Hnd].
  destruct (String.eqb_spec k0 k) as [->|Hne].
  - f_equal. apply map_ext_in. intros k' Hk'. f_equal. symmetry.
    apply Hg; [now right|]. intros ->. contradiction.
  - rewrite (Hg k0) by (auto; now left). f_equal.
    apply IH; [assumption|]. intros k' Hk'. apply Hg. now right.
Qed.

Lemma occurrences_snoc (k k' : string) (ks : list string) :
  occurrences k' (ks ++ [k]) =
  (occurrences k' ks + if string_dec k k' then 1 else 0)%nat.
Proof.
  unfold occurrences. rewrite count_occ_app. simpl.
  destruct (string_dec k k'); reflexivity.
Qed.

Lemma occurrences_notin (k : string) (ks : list string) :
  ~ In k ks -> occurrences k ks = 0%nat.
Proof. apply count_occ_not_In. Qed.

(** The object a reducer builds from plain keys holds each distinct key
    once, where it was first met, with the number of its occurrences. *)
Lemma group_plain (ks : list string) :
  Forall plain ks ->
  group ks = map (fun k => (k, Js.Num (occurrences k ks))) (firsts ks).
Proof.
  induction ks as [|k ks IH] using rev_ind; intros Hp; [reflexivity|].
  apply Forall_app in Hp as [Hp Hk]. apply Forall_inv in Hk.
  unfold group in *. rewrite fold_left_app. simpl. rewrite (IH Hp).
  rewrite firsts_snoc. unfold Js.set, Js.incr.
  destruct (in_dec string_dec k ks) as [Hin|Hin].
  - rewrite own_map_In by now apply firsts_In.
    assert (E : Js.Num (occurrences k ks + 1) =
                (fun k' => Js.Num (occurrences k' (ks ++ [k]))) k).
    { rewrite occurrences_snoc. now destruct (string_dec k k). }
    rewrite E.
    apply (replace_map (fun k' => Js.Num (occurrences k' ks))
             (fun k' => Js.Num (occurrences k' (ks ++ [k]))));
      [apply firsts_NoDup|].
    intros k' _ Hne. rewrite occurrences_snoc.
    destruct (string_dec k k') as [->|]; [contradiction|].
    now rewrite Nat.add_0_r.
  - rewrite own_map_notin by now rewrite firsts_In.
    rewrite Hk, (plain_not_proto _ Hk), map_app. simpl.
    rewrite occurrences_snoc, (occurrences_notin _ _ Hin).
    destruct (string_dec k k) as [_|]; [|congruence]. simpl.
    f_equal. apply map_ext_in. intros k' Hk'. rewrite occurrences_snoc.
    destruct (string_dec k k') as [->|]; [|now rewrite Nat.add_0_r].
    apply -> firsts_In in Hk'. contradiction.
Qed.

(** A reducer over records is the reducer over their keys. *)
Lemma fold_group {A} (key : A -> string) (l : list A) (acc : Js.object) :
  fold_left (fun acc a => Js.set acc (key a) (Js.incr acc (key a))) l acc =
  fold_left (fun acc k => Js.set acc k (Js.incr acc k)) (map key l) acc.
Proof.
  revert acc. induction l as [|a l IH]; intros acc; simpl; [reflexivity|].
  apply IH.
Qed.

Lemma occurrences_filter {A} (key : A -> string) (k : string) (l : list A) :
  occurrences k (map key l) =
  List.length (filter (fun a => String.eqb (key a) k) l).
Proof.
  unfold occurrences. induction l as [|a l IH]; simpl; [reflexivity|].
  destruct (string_dec (key a) k) as [E|E].
  - rewrite E, String.eqb_refl. simpl. now rewrite IH.
  - apply String.eqb_neq in E. now rewrite E.
Qed.

Lemma occurrences_sum (ks l : list string) :
  list_sum (map (fun k => occurrences k (ks)) l) =
  list_sum (map (fun k => count_occ string_dec l k) ks).
Proof.
  unfold occurrences. revert l. induction ks as [|a ks IH]; intros l; simpl.
  - induction l; simpl; auto.
  - rewrite <- IH. clear IH. induction l as [|b l IHl]; simpl; [reflexivity|].
    rewrite IHl. destruct (string_dec a b), (string_dec b a);
      subst; try contradiction; simpl; lia.
Qed.

(** The counts of the distinct keys add up to the number of keys. *)
Lemma occurrences_total (ks : list string) :
  list_sum (map (fun k => occurrences k ks) (firsts ks)) = List.length ks.
Proof.
  rewrite occurrences_sum.
  rewrite (map_ext_in _ (fun _ => 1%nat)).
  - induction ks; simpl; auto.
  - intros k Hk. apply NoDup_count_occ'; [apply firsts_NoDup|].
    now apply firsts_In.
Qed.

Lemma entries_named (o : Js.object) :
  Forall (fun p => Js.is_index (fst p) = false) o -> Js.entries o = o.
Proof.
  intros H. unfold Js.entries.
  rewrite filter_none, filter_all; [reflexivity | |];
  intros p Hp; rewrite Forall_forall in H; now rewrite (H p Hp).
Qed.

Lemma entries_perm (o : Js.object) : Permutation (Js.entries o) o.
Proof.
  unfold Js.entries. rewrite sort_perm.
  induction o as [|p o IH]; simpl; [constructor|].
  destruct (Js.is_index (fst p)); simpl.
  - now constructor.
  - rewrite <- Permutation_middle. now constructor.
Qed.
End Grouping.

(** ** Array-index keys and the order of [Object.entries] *)

Section ArrayIndex.
Local Open Scope string_scope.

Lemma scale_cons (c : ascii) (s : string) :
  scale (String c s) = (10 * scale s)%N.
Proof.
  unfold scale. simpl String.length.
  now rewrite Nnat.Nat2N.inj_succ, N.pow_succ_r'.
Qed.

Lemma scale_pos (s : string) : (0 < scale s)%N.
Proof. unfold scale. apply N.neq_0_lt_0, N.pow_nonzero. discriminate. Qed.

Lemma digit_spec (c : ascii) (d : N) :
  Js.digit c = Some d -> (d < 10)%N /\ c = ascii_of_N (d + 48).
Proof.
  unfold Js.digit. intros H.
  destruct (N.leb_spec 48 (N_of_ascii c)); simpl in H; [|discriminate].
  destruct (N.leb_spec (N_of_ascii c) 57); simpl in H; [|discriminate].
  injection H as <-. split; [lia|].
  replace (N_of_ascii c - 48 + 48)%N with (N_of_ascii c) by lia.
  now rewrite ascii_N_embedding.
Qed.

Lemma numeral_String (c : ascii) (s : string) (acc : N) :
  Js.numeral (String c s) acc =
  match Js.digit c with
  | Some d => Js.numeral s (10 * acc + d)
  | None => None
  end.
Proof. reflexivity. Qed.

Lemma numeral_shift (s : string) (acc : N) :
  Js.numeral s acc =
  option_map (fun v => (acc * scale s + v)%N) (Js.numeral s 0).
Proof.
  revert acc. induction s as [|c s IH]; intros acc.
  - simpl. f_equal. unfold scale. simpl. lia.
  - rewrite !numeral_String. destruct (Js.digit c) as [d|]; [|reflexivity].
    rewrite (IH (10 * acc + d)%N), (IH (10 * 0 + d)%N), scale_cons.
    destruct (Js.numeral s 0) as [v|]; cbn [option_map];
      [f_equal; lia | reflexivity].
Qed.

Lemma numeral_cons (c : ascii) (s : string) (n : N) :
  Js.numeral (String c s) 0 = Some n ->
  exists d v, Js.digit c = Some d /\ Js.numeral s 0 = Some v /\
              n = (d * scale s + v)%N.
Proof.
  rewrite numeral_String. destruct (Js.digit c) as [d|]; [|discriminate].
  rewrite numeral_shift. destruct (Js.numeral s 0) as [v|]; [|discriminate].
  cbn [option_map]. intros [= <-]. exists d, v. repeat split; lia.
Qed.

Lemma numeral_bound (s : string) (v : N) :
  Js.numeral s 0 = Some v -> (v < scale s)%N.
Proof.
  revert v. induction s as [|c s IH]; intros v H.
  - injection H as <-. unfold scale. simpl. lia.
  - apply numeral_cons in H as (d & w & Hd & Hw & ->).
    apply digit_spec in Hd as [Hd _]. specialize (IH _ Hw).
    rewrite scale_cons. nia.
Qed.

(** Two numerals of one length and one value are the same string. *)
Lemma numeral_inj (s1 s2 : string) (v : N) :
  String.length s1 = String.length s2 ->
  Js.numeral s1 0 = Some v -> Js.numeral s2 0 = Some v -> s1 = s2.
Proof.
  revert s2 v. induction s1 as [|c1 s1 IH]; intros [|c2 s2] v Hlen H1 H2;
    try discriminate; [reflexivity|].
  injection Hlen as Hlen.
  apply numeral_cons in H1 as (d1 & v1 & Hd1 & Hv1 & E1).
  apply numeral_cons in H2 as (d2 & v2 & Hd2 & Hv2 & E2).
  pose proof (numeral_bound _ _ Hv1) as B1.
  pose proof (numeral_bound _ _ Hv2) as B2.
  assert (Hs : scale s1 = scale s2) by (unfold scale; now rewrite Hlen).
  rewrite Hs in *.
  assert (d1 = d2 /\ v1 = v2) as [-> ->].
  { rewrite E1 in E2. clear - E2 B1 B2. revert E2 B1 B2.
    generalize (scale s2). intros S ? ? ?.
    destruct (N.lt_trichotomy d1 d2) as [?|[->|?]]; [nia | lia | nia]. }
  apply digit_spec in Hd1 as [_ ->], Hd2 as [_ ->].
  f_equal. now apply (IH s2 v2).
Qed.

(** What [array_index] accepts: a numeral that is "0" or starts with a digit
    other than 0. *)
Lemma array_index_spec (k : string) (n : N) :
  Js.array_index k = Some n ->
  Js.numeral k 0 = Some n /\
  (1 <= String.length k)%nat /\
  (String.length k = 1%nat \/ (scale k <= 10 * n)%N).
Proof.
  unfold Js.array_index. destruct k as [|c rest]; [discriminate|].
  destruct (Ascii.eqb_spec c "0"%char) as [->|Hc]; simpl andb.
  - destruct (String.eqb_spec rest "") as [->|Hr]; simpl negb;
      [|discriminate].
    cbv iota. intros H. split; [|split; [simpl; lia | now left]].
    destruct (Js.numeral "0" 0) as [m|]; [|discriminate].
    destruct (m <=? 4294967294)%N; [|discriminate]. now injection H as <-.
  - cbv iota.
    destruct (Js.numeral (String c rest) 0) as [m|] eqn:Hm; [|discriminate].
    destruct (m <=? 4294967294)%N; [|discriminate]. intros [= <-].
    split; [reflexivity|]. split; [simpl; lia|]. right.
    apply numeral_cons in Hm as (d & v & Hd & Hv & ->).
    rewrite scale_cons.
    assert (d <> 0%N).
    { intros ->. apply digit_spec in Hd as [_ ->]. now apply Hc. }
    nia.
Qed.

Lemma array_index_inj (k1 k2 : string) (n : N) :
  Js.array_index k1 = Some n -> Js.array_index k2 = Some n -> k1 = k2.
Proof.
  intros H1 H2.
  apply array_index_spec in H1 as (N1 & P1 & L1), H2 as (N2 & P2 & L2).
  apply (numeral_inj k1 k2 n); [|assumption|assumption].
  pose proof (numeral_bound _ _ N1) as B1.
  pose proof (numeral_bound _ _ N2) as B2.
  assert (M : forall a b : nat,
             (a < b)%nat -> (10 * 10 ^ N.of_nat a <= 10 ^ N.of_nat b)%N).
  { intros a b Hab. rewrite <- N.pow_succ_r'.
    apply N.pow_le_mono_r; [discriminate | lia]. }
  unfold scale in *.
  destruct (Nat.lt_trichotomy (String.length k1) (String.length k2))
    as [Hlt|[E|Hlt]]; [|exact E|]; exfalso; specialize (M _ _ Hlt).
  - destruct L2 as [L2|L2]; [lia|].
    generalize dependent (10 ^ N.of_nat (String.length k1))%N.
    generalize dependent (10 ^ N.of_nat (String.length k2))%N. intros. lia.
  - destruct L1 as [L1|L1]; [lia|].
    generalize dependent (10 ^ N.of_nat (String.length k1))%N.
    generalize dependent (10 ^ N.of_nat (String.length k2))%N. intros. lia.
Qed.
End ArrayIndex.

Section EntriesOrder.
Local Open Scope string_scope.

Lemma NoDup_before {A B} (f : A -> B) (p q : A) (l : list A) :
  NoDup (map f l) -> before p q l -> f p <> f q.
Proof.
  intros Hnd (l1 & l2 & l3 & ->) E.
  rewrite map_app in Hnd. simpl in Hnd. apply NoDup_remove_2 in Hnd.
  apply Hnd. apply in_or_app. right. rewrite E. apply in_map.
  apply in_or_app. right. now left.
Qed.

Lemma is_index_true (k : string) :
  Js.is_index k = true -> exists i, Js.array_index k = Some i.
Proof.
  unfold Js.is_index. destruct (Js.array_index k) as [i|]; [|discriminate].
  now exists i.
Qed.

Lemma is_index_false (k : string) :
  Js.is_index k = false -> Js.array_index k = None.
Proof.
  unfold Js.is_index. now destruct (Js.array_index k).
Qed.

(** Where [Object.entries] lists an entry before another one: both keys are
    array indices and the first is the smaller one, or only the first key is
    an array index, or none is and the first was created earlier. *)
Lemma entries_order (o : Js.object) (p q : string * Js.value) :
  NoDup (map fst o) ->
  before p q (Js.entries o) ->
  match Js.array_index (fst p), Js.array_index (fst q) with
  | Some i, Some j => (i < j)%N
  | Some _, None => True
  | None, Some _ => False
  | None, None => before p q o
  end.
Proof.
  intros Hnd H. unfold Js.entries in H.
  apply before_app_inv in H as [H|[[Hp Hq]|H]].
  - change (fun a b : string * Js.value =>
              Some (Js.index_of (fst a) - Js.index_of (fst b))%Z)
      with (by_key (fun a : string * Js.value => Js.index_of (fst a))) in H.
    pose proof (before_In _ _ _ H) as [Hp Hq].
    apply sort_In, filter_In in Hp as [_ Hp], Hq as [_ Hq].
    apply is_index_true in Hp as [i Hi], Hq as [j Hj].
    rewrite Hi, Hj. apply sort_before in H as [H|[E H]].
    + unfold Js.index_of in H. rewrite Hi, Hj in H. lia.
    + exfalso. apply before_filter_inv in H.
      apply (NoDup_before fst _ _ _ Hnd H).
      unfold Js.index_of in E. rewrite Hi, Hj in E.
      apply N2Z.inj in E. subst j. now apply (array_index_inj _ _ i).
  - apply sort_In, filter_In in Hp as [_ Hp]. apply filter_In in Hq as [_ Hq].
    apply is_index_true in Hp as [i ->].
    apply negb_true_iff, is_index_false in Hq. now rewrite Hq.
  - pose proof (before_In _ _ _ H) as [Hp Hq].
    apply filter_In in Hp as [_ Hp], Hq as [_ Hq].
    apply negb_true_iff, is_index_false in Hp, Hq. rewrite Hp, Hq.
    now apply before_filter_inv in H.
Qed.

Lemma in_split_first (a : string) (l : list string) :
  In a l -> exists pre post, l = (pre ++ a :: post)%list /\ ~ In a pre.
Proof.
  induction l as [|x l IH]; [contradiction|]. intros H.
  destruct (string_dec x a) as [->|Hne].
  - exists [], l. split; [reflexivity | intros []].
  - destruct H as [H|H]; [contradiction|].
    destruct (IH H) as (pre & post & -> & Hpre).
    exists (x :: pre), post. split; [reflexivity|].
    intros [E|E]; [contradiction | now apply Hpre].
Qed.

Lemma first_before_snoc (a b k : string) (ks : list string) :
  first_before a b ks -> first_before a b (ks ++ [k]).
Proof.
  intros (pre & post & -> & Ha & Hb & Hne).
  exists pre, (post ++ [k])%list. rewrite <- app_assoc. now repeat split.
Qed.

(** The order of the distinct keys is the order of their first occurrences. *)
Lemma firsts_before (a b : string) (ks : list string) :
  before a b (firsts ks) -> first_before a b ks.
Proof.
  induction ks as [|k ks IH] using rev_ind; intros H.
  - destruct H as (l1 & l2 & l3 & H). now destruct l1.
  - rewrite firsts_snoc in H.
    destruct (in_dec string_dec k ks) as [Hin|Hin].
    + now apply first_before_snoc, IH.
    + apply before_app_inv in H as [H|[[Ha Hb]|H]].
      * now apply first_before_snoc, IH.
      * destruct Hb as [<-|[]]. apply -> firsts_In in Ha.
        destruct (in_split_first _ _ Ha) as (pre & post & E & Hpre).
        exists pre, (post ++ [k])%list. rewrite E, <- app_assoc.
        repeat split; [assumption | | congruence].
        intros Hk. apply Hin. rewrite E. apply in_or_app. now left.
      * destruct H as (l1 & l2 & l3 & H).
        destruct l1 as [|? [|? ?]]; destruct l2; discriminate H.
Qed.
End EntriesOrder.
(** ** The category aggregator and the category filter *)

Section CategoryData.
Local Open Scope string_scope.

Lemma known_plain (k : string) : In k known_categories -> plain k.
Proof.
  unfold known_categories. simpl.
  intros [<-|[<-|[<-|[<-|[<-|[]]]]]]; reflexivity.
Qed.

Lemma known_named (k : string) :
  In k known_categories -> Js.is_index k = false.
Proof.
  unfold known_categories. simpl.
  intros [<-|[<-|[<-|[<-|[<-|[]]]]]]; reflexivity.
Qed.

Lemma categories_known (anomalies : list LogEntry) :
  Forall (fun k => In k known_categories) (categories_of anomalies).
Proof.
  apply Forall_forall. intros k Hk. apply in_map_iff in Hk as (a & <- & _).
  apply categoryOf_known.
Qed.

(** One bucket for each category that occurs, in order of first
    occurrence, with the number of records of that category. *)
Lemma getCategoryData_buckets (anomalies : list LogEntry) :
  getCategoryData anomalies =
  map (fun k => {| Category.name := k;
                 Category.value :=
                   Js.Num (occurrences k (categories_of anomalies)) |})
    (firsts (categories_of anomalies)).
Proof.
  unfold getCategoryData.
  change (fold_left _ anomalies [])
  with (fold_left (fun acc a =>
                       Js.set acc (classify (message a))
                              (Js.incr acc (classify (message a))))
                    anomalies []).
  rewrite (fold_group (fun a => classify (message a))).
  fold (categories_of anomalies). fold (group (categories_of anomalies)).
  pose proof (categories_known anomalies) as Hk.
  rewrite group_plain
  by (eapply Forall_impl; [|exact Hk]; apply known_plain).
  rewrite entries_named.
  - now rewrite map_map.
  - apply Forall_forall. intros p Hp.
    apply in_map_iff in Hp as (k & <- & Hin). simpl.
    apply known_named. rewrite Forall_forall in Hk.
    apply Hk. now apply firsts_In.
Qed.

(** C9. The category aggregator puts each record in exactly one bucket:
    the buckets carry distinct names, the bucket of a name counts the
    records that classify to it, every record has its bucket, and the
    counts add up to the number of records. *)
Theorem getCategoryData_total (anomalies : list LogEntry) :
  let buckets := getCategoryData anomalies in
  NoDup (map Category.name buckets) /\
  (forall p, In p buckets ->
   Category.value p =
   Js.Num (List.length
             (filter (fun a => String.eqb (classify (message a))
                                          (Category.name p))
                     anomalies))) /\
  (forall a, In a anomalies ->
   exists p, In p buckets /\ Category.name p = classify (message a)) /\
  exists counts,
  map Category.value buckets = map Js.Num counts /\
  list_sum counts = List.length anomalies.
Proof.
  simpl. rewrite getCategoryData_buckets.
  set (ks := categories_of anomalies).
  split; [|split; [|split]].
  - rewrite map_map. simpl. rewrite map_id. apply firsts_NoDup.
  - intros p Hp. apply in_map_iff in Hp as (k & <- & _). simpl.
    unfold ks, categories_of.
    now rewrite (occurrences_filter (fun a => classify (message a))).
  - intros a Ha. eexists. split.
    + apply in_map. apply firsts_In. unfold ks, categories_of.
      apply in_map. exact Ha.
    + reflexivity.
  - exists (map (fun k => occurrences k ks) (firsts ks)). split.
    + now rewrite !map_map.
    + rewrite occurrences_total. unfold ks, categories_of.
      apply length_map.
Qed.

(** C10. A category name that is none of the five known ones selects no
    record: the filter of [handleCategoryClick] rejects every record, it
    neither falls back to Other nor fails. *)
Theorem handleCategoryClick_unknown (category : string) (st : State) :
  ~ In category known_categories ->
  filteredLogs (handleCategoryClick category st) = [] /\
  anomalies (handleCategoryClick category st) = anomalies st.
Proof.
  intros H. split; [|reflexivity]. simpl.
  apply filter_none. intros a _. unfold inCategory.
  unfold known_categories in H. simpl in H.
  destruct (String.eqb_spec category "Errors"); [subst; exfalso; apply H; auto 6|].
  destruct (String.eqb_spec category "Timeouts"); [subst; exfalso; apply H; auto 6|].
  destruct (String.eqb_spec category "Connection Issues"); [subst; exfalso; apply H; auto 6|].
  destruct (String.eqb_spec category "Failures"); [subst; exfalso; apply H; auto 6|].
  destruct (String.eqb_spec category "Other"); [subst; exfalso; apply H; auto 6|].
  reflexivity.
Qed.

Lemma handleCategoryClick_unknown_witness :
  let st := {| anomalies := [entry "auth" (-0.6) "request failed";
                           entry "billing" 0.2 "ok"];
             filteredLogs := [entry "billing" 0.2 "ok"] |} in
  ~ In "Warnings" known_categories /\
  filteredLogs (handleCategoryClick "Warnings" st) = [] /\
  anomalies (handleCategoryClick "Warnings" st) = anomalies st.
Proof.
  assert (H : ~ In "Warnings" known_categories).
  { simpl. intros [H|[H|[H|[H|[H|[]]]]]]; discriminate H. }
  split; [exact H|].
  apply (handleCategoryClick_unknown "Warnings" _ H).
Defined.
End CategoryData.

(** ** The service aggregator *)

Section ServiceData.
Local Open Scope string_scope.

Lemma tally_keys (ks : list string) : map fst (tally ks) = firsts ks.
Proof. unfold tally. rewrite map_map. apply map_id. Qed.

Lemma tally_In (ks : list string) (e : string * Js.value) :
  In e (Js.entries (tally ks)) ->
  In (fst e) ks /\ snd e = Js.Num (occurrences (fst e) ks).
Proof.
  intros H. apply (Permutation_in _ (entries_perm _)) in H.
  apply in_map_iff in H as (k & <- & Hk). split; [|reflexivity].
  now apply firsts_In.
Qed.

Lemma getServiceData_ranked (anomalies : list LogEntry) :
  Forall plain (map serviceName anomalies) ->
  getServiceData anomalies = firstn 5 (ranked (map serviceName anomalies)).
Proof.
  intros Hp. unfold getServiceData, Js.slice_first, ranked.
  rewrite (fold_group serviceName).
  fold (group (map serviceName anomalies)). rewrite (group_plain _ Hp).
  fold (tally (map serviceName anomalies)). f_equal.
  rewrite (map_ext _ bucket) by now intros [k v].
  apply sort_ext. intros x y Hx Hy. rewrite after_by_key.
  apply in_map_iff in Hx as (ex & <- & Hx), Hy as (ey & <- & Hy).
  apply tally_In in Hx as [_ Ex], Hy as [_ Ey].
  unfold Js.after, Js.sub, number. simpl. rewrite Ex, Ey. simpl.
  destruct (Z.ltb_spec 0 (Z.of_nat (occurrences (fst ey) (map serviceName anomalies))
                          - Z.of_nat (occurrences (fst ex) (map serviceName anomalies)))),
           (Z.ltb_spec (- Z.of_nat (occurrences (fst ey) (map serviceName anomalies)))
                       (- Z.of_nat (occurrences (fst ex) (map serviceName anomalies))));
    reflexivity || lia.
Qed.

Lemma ranked_In (ks : list string) (p : Service.point) :
  In p (ranked ks) ->
  In (Service.service p) ks /\
  Service.count p = Js.Num (occurrences (Service.service p) ks).
Proof.
  intros H. apply sort_In, in_map_iff in H as (e & <- & He).
  now apply tally_In.
Qed.

Lemma ranked_services (ks : list string) :
  Permutation (map Service.service (ranked ks)) (firsts ks).
Proof.
  unfold ranked. rewrite sort_perm, map_map. simpl.
  change (fun x : string * Js.value => fst x) with (@fst string Js.value).
  now rewrite entries_perm, tally_keys.
Qed.

Lemma NoDup_firstn {A} (n : nat) (l : list A) : NoDup l -> NoDup (firstn n l).
Proof.
  intros H. rewrite <- (firstn_skipn n l) in H.
  now apply NoDup_app_remove_r in H.
Qed.

(** Buckets of one count stand as [Object.entries] listed them. *)
Lemma ranked_ties (ks : list string) (p q : Service.point) :
  before p q (ranked ks) -> Service.count p = Service.count q ->
  entries_before (Service.service p) (Service.service q) ks.
Proof.
  intros H E. apply sort_before in H as [H|[_ H]]; [rewrite E in H; lia|].
  apply (before_map unbucket) in H. rewrite map_map in H.
  rewrite (map_ext _ (fun e => e)) in H by now intros [k v].
  rewrite map_id in H.
  apply entries_order in H; [|rewrite tally_keys; apply firsts_NoDup].
  unfold entries_before. simpl in H.
  destruct (Js.array_index (Service.service p)),
           (Js.array_index (Service.service q)); try exact H.
  apply firsts_before. rewrite <- tally_keys.
  now apply (before_map fst) in H.
Qed.

Lemma getServiceData_length (anomalies : list LogEntry) :
  List.length (getServiceData anomalies) <= 5.
Proof. apply firstn_le_length. Qed.

(** C6, as stated, fails. Services "b" then "1", one record each: the two
    buckets have the same count and "1" comes out first, although "b" was
    met first. *)
Lemma getServiceData_ties_counterexample :
  let anomalies := [entry "b" (-0.3) "timeout"; entry "1" (-0.3) "timeout"] in
  let out := getServiceData anomalies in
  out = [ {| Service.service := "1"; Service.count := Js.Num 1 |};
          {| Service.service := "b"; Service.count := Js.Num 1 |} ] /\
  exists p q,
    before p q out /\ Service.count p = Service.count q /\
    ~ first_before (Service.service p) (Service.service q)
        (map serviceName anomalies).
Proof.
  simpl. split; [vm_compute; reflexivity|].
  exists {| Service.service := "1"; Service.count := Js.Num 1 |},
         {| Service.service := "b"; Service.count := Js.Num 1 |}.
  split; [now exists [], [], [] | split; [reflexivity|]].
  intros (pre & post & E & _ & Hb & _). simpl in E.
  destruct pre as [|x pre]; [discriminate E|].
  injection E as <- _. apply Hb. now left.
Qed.

(** The sorted buckets are cut after the fifth: a service that has a
    bucket among the sorted ones has it among the first five, or five
    buckets stand before it. *)
Lemma ranked_cut (ks : list string) (s : string) :
  In s ks ->
  In s (map Service.service (firstn 5 (ranked ks))) \/
  (List.length (firstn 5 (ranked ks)) = 5 /\
   exists q, Service.service q = s /\
     forall p, In p (firstn 5 (ranked ks)) -> before p q (ranked ks)).
Proof.
  intros Hs.
  assert (H : In s (map Service.service (ranked ks))).
  { apply (Permutation_in _ (Permutation_sym (ranked_services ks))).
    now apply firsts_In. }
  apply in_map_iff in H as (q & Eq & Hq).
  rewrite <- (firstn_skipn 5 (ranked ks)) in Hq.
  apply in_app_or in Hq as [Hq|Hq].
  - left. apply in_map_iff. now exists q.
  - right. split.
    + rewrite length_firstn. apply Nat.min_l.
      destruct (Nat.le_gt_cases 5 (List.length (ranked ks))) as [|Hlt];
        [assumption|].
      rewrite skipn_all2 in Hq by lia. contradiction.
    + exists q. split; [exact Eq|].
      intros p Hp. now apply (before_firstn_skipn 5).
Qed.

(** C6, amended. The service aggregator returns at most 5 buckets, for
    every input.  When no service name is the name of a member of
    [Object.prototype]: it returns a bucket for each service, up to five
    (the number of buckets is the number of distinct services, or 5 when
    there are more); the buckets carry distinct service names, each with
    the number of records of that service; they are sorted by descending
    count, and two buckets of equal count stand in the order
    [Object.entries] lists their names: names that are array indices first,
    by ascending value, then the other names as first encountered.  The
    buckets are the first five in that order, the top 5: a service that has
    no bucket has at most as many records as each service that has one, and
    comes after it in the order of [Object.entries] when it has as many.
    So ties keep the first-encountered order when no service name is an
    array index. *)
Theorem getServiceData_order (anomalies : list LogEntry) :
  let ks := map serviceName anomalies in
  let out := getServiceData anomalies in
  List.length out <= 5 /\
  (Forall plain ks ->
  NoDup (map Service.service out) /\
  (forall p, In p out ->
     In (Service.service p) ks /\
     Service.count p =
     Js.Num (List.length
               (filter (fun a => String.eqb (serviceName a) (Service.service p))
                       anomalies))) /\
  (forall p q n m, before p q out ->
     Service.count p = Js.Num n -> Service.count q = Js.Num m -> m <= n) /\
  (forall p q, before p q out -> Service.count p = Service.count q ->
     entries_before (Service.service p) (Service.service q) ks) /\
  (Forall (fun k => Js.is_index k = false) ks ->
   forall p q, before p q out -> Service.count p = Service.count q ->
     first_before (Service.service p) (Service.service q) ks) /\
  List.length out = Nat.min 5 (List.length (firsts ks)) /\
  (forall s, In s ks ->
     In s (map Service.service out) \/
     (List.length out = 5 /\
      forall p, In p out ->
        exists n, Service.count p = Js.Num n /\
          let m := List.length
                     (filter (fun a => String.eqb (serviceName a) s)
                             anomalies) in
          m <= n /\ (m = n -> entries_before (Service.service p) s ks)))).
Proof.
  intros ks out. split; [apply getServiceData_length|]. intros Hp.
  unfold out. rewrite (getServiceData_ranked _ Hp). fold ks.
  assert (Hties : forall p q, before p q (firstn 5 (ranked ks)) ->
                    Service.count p = Service.count q ->
                    entries_before (Service.service p) (Service.service q) ks).
  { intros p q H. apply ranked_ties. now apply before_firstn in H. }
  split; [|split; [|split; [|split; [|split; [|split]]]]].
  - rewrite <- firstn_map. apply NoDup_firstn.
    apply (Permutation_NoDup (Permutation_sym (ranked_services ks))).
    apply firsts_NoDup.
  - intros p Hin. apply firstn_In, ranked_In in Hin as [Hin E].
    split; [exact Hin|]. rewrite E. f_equal. apply occurrences_filter.
  - intros p q n m H En Em. apply before_firstn in H.
    apply (before_sorted _ _ _ _ (sort_sorted _ _)) in H.
    unfold number in H. rewrite En, Em in H. simpl in H. lia.
  - exact Hties.
  - intros Hn p q H E. specialize (Hties p q H E).
    unfold entries_before in Hties. rewrite Forall_forall in Hn.
    pose proof (before_In _ _ _ H) as [Hi Hj].
    apply firstn_In, ranked_In in Hi as [Hi _], Hj as [Hj _].
    now rewrite (is_index_false _ (Hn _ Hi)), (is_index_false _ (Hn _ Hj))
      in Hties.
  - rewrite length_firstn.
    pose proof (Permutation_length (ranked_services ks)) as L.
    rewrite length_map in L. now rewrite L.
  - intros s Hs. destruct (ranked_cut ks s Hs) as [H|(L & q & Eq & Hq)];
      [now left | right].
    split; [exact L|]. intros p Hin. specialize (Hq p Hin).
    pose proof (before_In _ _ _ Hq) as [Hi Hj].
    apply ranked_In in Hi as [_ Ep], Hj as [_ Eq'].
    rewrite Eq in Eq'. eexists. split; [exact Ep|]. cbv zeta.
    unfold ks at 1 2. rewrite <- (occurrences_filter serviceName). fold ks.
    split.
    + apply (before_sorted _ _ _ _ (sort_sorted _ _)) in Hq.
      unfold number in Hq. rewrite Ep, Eq' in Hq. simpl in Hq. lia.
    + intros E. rewrite <- Eq. apply ranked_ties; [exact Hq|].
      rewrite Ep, Eq'. f_equal. now symmetry.
Qed.

Lemma getServiceData_order_witness :
  let anomalies :=
    [entry "web" (-0.3) "timeout"; entry "7" (-0.3) "timeout";
     entry "db" (-0.3) "timeout"; entry "web" (-0.3) "timeout";
     entry "10" (-0.3) "timeout"; entry "auth" (-0.3) "timeout";
     entry "queue" (-0.3) "timeout"; entry "cache" (-0.3) "timeout"] in
  let ks := map serviceName anomalies in
  let out := getServiceData anomalies in
  Forall plain ks /\
  out = [ {| Service.service := "web"; Service.count := Js.Num 2 |};
          {| Service.service := "7"; Service.count := Js.Num 1 |};
          {| Service.service := "10"; Service.count := Js.Num 1 |};
          {| Service.service := "db"; Service.count := Js.Num 1 |};
          {| Service.service := "auth"; Service.count := Js.Num 1 |} ] /\
  forall p q, before p q out -> Service.count p = Service.count q ->
    entries_before (Service.service p) (Service.service q) ks.
Proof.
  intros anomalies ks out.
  assert (Hp : Forall plain ks) by (repeat constructor).
  split; [exact Hp|]. split; [vm_compute; reflexivity|].
  apply (proj2 (getServiceData_order anomalies) Hp).
Defined.
End ServiceData.

(** ** The end-to-end scenario *)

Section Scenario.
Local Open Scope string_scope.

(** C2, as stated, fails: the third record, of score -0.1, is below the
    threshold -0.05 and its tier is moderate, not low. *)
Lemma scenario_counterexample :
  let records := [entry "auth" (-0.6) "fatal exception in handler";
                  entry "auth" 0.2 "ok";
                  entry "billing" (-0.1) "connection unavailable"] in
  ~ (tiers records = [critical; normal; low] /\
   getCategoryData records =
   [ {| Category.name := "Errors"; Category.value := Js.Num 1 |};
     {| Category.name := "Other"; Category.value := Js.Num 1 |};
     {| Category.name := "Connection Issues";
        Category.value := Js.Num 1 |} ] /\
   getServiceData records =
   [ {| Service.service := "auth"; Service.count := Js.Num 2 |};
     {| Service.service := "billing"; Service.count := Js.Num 1 |} ]).
Proof.
  intros records [H _]. vm_compute in H. discriminate H.
Qed.

(** C2, amended. For the three records of the scenario (auth, -0.6, "fatal
    exception in handler"; auth, 0.2, "ok"; billing, -0.1, "connection
    unavailable"), whatever their ids, timestamps and anomaly flags, the
    tiers are critical, normal and moderate, the category buckets are
    Errors 1, Other 1 and Connection Issues 1, and the service buckets are
    auth 2 and billing 1. *)
Theorem scenario_amended :
  forall (id1 id2 id3 : string) (t1 t2 t3 : Z) (a1 a2 a3 : bool),
  let records :=
  [ {| id := id1; serviceName := "auth";
       message := "fatal exception in handler";
       timestamp := t1; isAnomaly := a1; score := -0.6 |};
    {| id := id2; serviceName := "auth"; message := "ok";
       timestamp := t2; isAnomaly := a2; score := 0.2 |};
    {| id := id3; serviceName := "billing";
       message := "connection unavailable";
       timestamp := t3; isAnomaly := a3; score := -0.1 |} ] in
  tiers records = [critical; normal; moderate] /\
  getCategoryData records =
  [ {| Category.name := "Errors"; Category.value := Js.Num 1 |};
  {| Category.name := "Other"; Category.value := Js.Num 1 |};
  {| Category.name := "Connection Issues"; Category.value := Js.Num 1 |} ] /\
  getServiceData records =
  [ {| Service.service := "auth"; Service.count := Js.Num 2 |};
  {| Service.service := "billing"; Service.count := Js.Num 1 |} ].
Proof.
  intros. repeat split; vm_compute; reflexivity.
Qed.

(** C1, on the code. Two records, "connection error occurred" and
    "connection lost": the aggregator counts the first one under Errors, so
    the bucket Connection Issues has count 1, while the click on that
    bucket selects both records. *)
Theorem category_click_disagrees :
  let records := [entry "api" (-0.3) "connection error occurred";
                  entry "api" (-0.3) "connection lost"] in
  getCategoryData records =
  [ {| Category.name := "Errors"; Category.value := Js.Num 1 |};
    {| Category.name := "Connection Issues"; Category.value := Js.Num 1 |} ] /\
  filteredLogs (handleCategoryClick "Connection Issues"
                {| anomalies := records; filteredLogs := [] |}) = records.
Proof.
  split; vm_compute; reflexivity.
Qed.
End Scenario.

(** ** The time-series aggregator *)

Section TimeSeriesData.
Local Open Scope string_scope.
Variable host : Host.
Variable day : Z -> Z.


Section Chronological.
Variable anomalies : list LogEntry.
Hypothesis Hchron : chronological host day anomalies.

Local Abbreviation ks := (dates_of host anomalies).

Lemma series_In (p : TimeSeries.point) :
  In p (series host ks) ->
  exists a, In a anomalies /\ TimeSeries.date p = date_of host a /\
            TimeSeries.count p = Js.Num (occurrences (date_of host a) ks) /\
            getTime host (TimeSeries.date p) = Some (day (timestamp a)).
Proof.
  intros H. apply sort_In, in_map_iff in H as ([k v] & <- & He).
  apply tally_In in He as [Hk Hc]. simpl in *.
  apply in_map_iff in Hk as (a & <- & Ha).
  exists a. repeat split; try assumption.
  now apply (dates_read Hchron).
Qed.

Lemma getTimeSeriesData_series :
  getTimeSeriesData host anomalies = Js.slice_last 10 (series host ks).
Proof.
  unfold getTimeSeriesData, series.
  change (fold_left _ anomalies [])
    with (fold_left (fun acc a => Js.set acc (date_of host a)
                                         (Js.incr acc (date_of host a)))
                    anomalies []).
  rewrite (fold_group (date_of host)). fold ks.
  fold (group ks). rewrite (group_plain _ (dates_plain Hchron)).
  fold (tally ks). rewrite (map_ext _ point) by now intros [k v].
  f_equal. apply sort_ext. intros x y Hx Hy. rewrite after_by_key.
  assert (S : forall z, In z (map point (Js.entries (tally ks))) ->
                        In z (series host ks)) by (intros z; apply sort_In).
  apply S, series_In in Hx as (a & _ & _ & _ & Ea).
  apply S, series_In in Hy as (b & _ & _ & _ & Eb).
  unfold Js.after, minus, time_of. rewrite Ea, Eb.
  destruct (Z.ltb_spec 0 (day (timestamp a) - day (timestamp b))),
           (Z.ltb_spec (day (timestamp b)) (day (timestamp a)));
    reflexivity || lia.
Qed.





End Chronological.


End TimeSeriesData.

Section TimeSeriesExample.
Local Open Scope Z_scope.

Lemma day_monotone (t1 t2 : Z) : t1 <= t2 -> EnUsUtc.day t1 <= EnUsUtc.day t2.
Proof.
  intros H. unfold EnUsUtc.day, EnUsUtc.msPerDay.
  apply Z.mul_le_mono_nonneg_r; [lia|]. apply Z.div_le_mono; lia.
Qed.

Lemma november_chronological :
  chronological EnUsUtc.host EnUsUtc.day november.
Proof.
  split.
  - repeat constructor.
  - intros a Ha. simpl in Ha.
    repeat (destruct Ha as [<-|Ha]; [vm_compute; reflexivity|]).
    contradiction.
  - intros a b Ha Hb. simpl in Ha, Hb.
    repeat (destruct Ha as [<-|Ha];
            [repeat (destruct Hb as [<-|Hb];
                     [vm_compute; intros E;
                      first [reflexivity | discriminate E]|]);
             contradiction|]).
    contradiction.
  - intros a b _ _. apply day_monotone.
Defined.

End TimeSeriesExample.

(** ** The time series on a host that prints the day first *)

Section DayFirst.
Local Open Scope string_scope.

(** C7, on the code. The aggregator sorts the points by the time that
    [Date] reads from their date strings, and [Date] reads the first field
    of a date string as the month.  On a host that prints the day first
    (es-ES, UTC): the point of 1 February 2023, printed 1/2/2023, comes
    before the point of 2 January 2023, printed 2/1/2023; and of records of
    1 February and of 2 to 11 January, eleven dates, the ten points kept are
    those of January: the most recent date is the one left out. *)
Theorem getTimeSeriesData_day_first :
  let jan2 := at_time (january 2) in
  let feb1 := at_time february_1 in
  let january_2_to_11 :=
    map (fun d => at_time (january d)) [2; 3; 4; 5; 6; 7; 8; 9; 10; 11]%Z in
  (timestamp jan2 < timestamp feb1)%Z /\
  date_of EsEsUtc.host jan2 = "2/1/2023" /\
  date_of EsEsUtc.host feb1 = "1/2/2023" /\
  getTimeSeriesData EsEsUtc.host [jan2; feb1] =
    [ {| TimeSeries.date := "1/2/2023"; TimeSeries.count := Js.Num 1 |};
      {| TimeSeries.date := "2/1/2023"; TimeSeries.count := Js.Num 1 |} ] /\
  Forall (fun a => (timestamp a < timestamp feb1)%Z) january_2_to_11 /\
  map TimeSeries.date
      (getTimeSeriesData EsEsUtc.host (feb1 :: january_2_to_11)) =
    [ "2/1/2023"; "3/1/2023"; "4/1/2023"; "5/1/2023"; "6/1/2023";
      "7/1/2023"; "8/1/2023"; "9/1/2023"; "10/1/2023"; "11/1/2023" ].
Proof.
  cbv zeta. split; [reflexivity|]. split; [reflexivity|].
  split; [reflexivity|]. split; [vm_compute; reflexivity|].
  split; [|vm_compute; reflexivity].
  repeat constructor.
Qed.
End DayFirst.
(** ** Binary64 rounding

    [SpecFloat] defines the operations of binary64 on decoded numbers and
    [FloatAxioms] states that the primitive operations compute them.  The
    lemmas below read the rounding of [SpecFloat] as a function on scaled
    integers, which is monotone. *)

Section Binary64Facts.
Import Binary64.
Local Open Scope Z_scope.

Lemma pow2_half (n : Z) : 1 <= n -> 2 ^ n = 2 * 2 ^ (n - 1) /\ 0 < 2 ^ (n - 1).
Proof.
  intros H. split.
  - rewrite <- Z.pow_succ_r by lia. f_equal. lia.
  - apply Z.pow_pos_nonneg; lia.
Qed.

Lemma rne_range (m n : Z) :
  1 <= n -> m / 2 ^ n <= rne m n <= m / 2 ^ n + 1.
Proof.
  intros Hn. unfold rne.
  destruct (_ <? _); [lia|]. destruct (_ =? _); [|lia].
  destruct (Z.even _); lia.
Qed.

Lemma rne_mono (n m m' : Z) :
  1 <= n -> m <= m' -> rne m n <= rne m' n.
Proof.
  intros Hn Hm. destruct (pow2_half n Hn) as [E Hh].
  pose proof (Z.div_le_mono m m' (2 ^ n) ltac:(lia) Hm) as Hq.
  pose proof (Z.div_mod m (2 ^ n) ltac:(lia)) as Dm.
  pose proof (Z.div_mod m' (2 ^ n) ltac:(lia)) as Dm'.
  pose proof (Z.mod_pos_bound m (2 ^ n) ltac:(lia)) as Bm.
  pose proof (Z.mod_pos_bound m' (2 ^ n) ltac:(lia)) as Bm'.
  destruct (Z.eq_dec (m / 2 ^ n) (m' / 2 ^ n)) as [Eq|Ne].
  - unfold rne. rewrite <- Eq in *.
    assert (m mod 2 ^ n <= m' mod 2 ^ n) by lia.
    destruct (Z.ltb_spec (m mod 2 ^ n) (2 ^ (n - 1))),
             (Z.ltb_spec (m' mod 2 ^ n) (2 ^ (n - 1))),
             (Z.eqb_spec (m mod 2 ^ n) (2 ^ (n - 1))),
             (Z.eqb_spec (m' mod 2 ^ n) (2 ^ (n - 1)));
      try lia; destruct (Z.even (m / 2 ^ n)); lia.
  - pose proof (rne_range m n Hn). pose proof (rne_range m' n Hn). lia.
Qed.

Lemma rne_exact (m n : Z) :
  1 <= n -> m mod 2 ^ n = 0 -> rne m n = m / 2 ^ n.
Proof.
  intros Hn H. destruct (pow2_half n Hn) as [E Hh]. unfold rne. rewrite H.
  destruct (Z.ltb_spec 0 (2 ^ (n - 1))); [reflexivity | lia].
Qed.

Lemma rne_shift (m n j : Z) :
  1 <= n -> 0 <= j -> rne (m * 2 ^ j) (n + j) = rne m n.
Proof.
  intros Hn Hj. unfold rne.
  assert (Hj' : 0 < 2 ^ j) by (apply Z.pow_pos_nonneg; lia).
  assert (Hp : 0 < 2 ^ n) by (apply Z.pow_pos_nonneg; lia).
  rewrite (Z.pow_add_r 2 n j) by lia.
  rewrite Z.div_mul_cancel_r by lia.
  rewrite Z.mul_mod_distr_r by lia.
  replace (n + j - 1) with (n - 1 + j) by lia.
  rewrite (Z.pow_add_r 2 (n - 1) j) by lia.
  assert (L : forall a b, (a * 2 ^ j <? b * 2 ^ j) = (a <? b)).
  { intros a b. destruct (Z.ltb_spec (a * 2 ^ j) (b * 2 ^ j)), (Z.ltb_spec a b);
      try reflexivity; nia. }
  assert (Q : forall a b, (a * 2 ^ j =? b * 2 ^ j) = (a =? b)).
  { intros a b. destruct (Z.eqb_spec (a * 2 ^ j) (b * 2 ^ j)), (Z.eqb_spec a b);
      try reflexivity; nia. }
  now rewrite L, Q.
Qed.

Lemma ulp_shift_pos (V : Z) : 1 <= ulp_shift V.
Proof. unfold ulp_shift, lsb. lia. Qed.

Lemma ulp_shift_mono (V V' : Z) : V <= V' -> ulp_shift V <= ulp_shift V'.
Proof.
  intros H. unfold ulp_shift. pose proof (Z.log2_le_mono V V' H). lia.
Qed.

Lemma RN_mono (V V' : Z) : 0 < V -> V <= V' -> RN V <= RN V'.
Proof.
  intros H0 H. unfold RN.
  pose proof (ulp_shift_mono V V' H) as Hk.
  pose proof (ulp_shift_pos V) as Hk1.
  destruct (Z.eq_dec (ulp_shift V) (ulp_shift V')) as [E|Ne].
  - rewrite <- E. apply Z.mul_le_mono_nonneg_r.
    + apply Z.pow_nonneg. lia.
    + now apply rne_mono.
  - set (k := ulp_shift V) in *. set (k' := ulp_shift V') in *.
    assert (Hk' : k' = Z.log2 V' - 52) by (unfold k', k, ulp_shift in *; lia).
    assert (HkV : Z.log2 V - 52 <= k) by (unfold k, ulp_shift; lia).
    (* V < 2^(k+53) *)
    assert (HV : V < 2 ^ (k + 53)).
    { pose proof (Z.log2_spec V H0) as [_ Hs].
      eapply Z.lt_le_trans; [exact Hs|]. apply Z.pow_le_mono_r; lia. }
    assert (HV' : 2 ^ (k' + 52) <= V').
    { pose proof (Z.log2_spec V' ltac:(lia)) as [Hs _].
      replace (k' + 52) with (Z.log2 V') by lia. exact Hs. }
    assert (P : 0 < 2 ^ k) by (apply Z.pow_pos_nonneg; lia).
    assert (P' : 0 < 2 ^ k') by (apply Z.pow_pos_nonneg; lia).
    assert (A : rne V k <= 2 ^ 53).
    { pose proof (rne_range V k Hk1) as [_ Hr].
      assert (V / 2 ^ k < 2 ^ 53).
      { apply Z.div_lt_upper_bound; [lia|]. rewrite <- Z.pow_add_r by lia.
        exact HV. }
      lia. }
    assert (B : 2 ^ 52 <= rne V' k').
    { pose proof (rne_range V' k' ltac:(lia)) as [Hr _].
      assert (2 ^ 52 <= V' / 2 ^ k').
      { apply Z.div_le_lower_bound; [lia|]. rewrite <- Z.pow_add_r by lia.
        exact HV'. }
      lia. }
    assert (C : 2 ^ k' = 2 ^ (k' - k - 1) * 2 * 2 ^ k).
    { replace k' with ((k' - k - 1) + 1 + k) at 1 by lia.
      rewrite !Z.pow_add_r by lia. reflexivity. }
    assert (D : 1 <= 2 ^ (k' - k - 1)).
    { assert (0 < 2 ^ (k' - k - 1)) by (apply Z.pow_pos_nonneg; lia). lia. }
    rewrite C. change (2 ^ 53) with (2 * 2 ^ 52) in A.
    generalize dependent (2 ^ (k' - k - 1)). generalize dependent (2 ^ k).
    generalize dependent (rne V k). generalize dependent (rne V' k').
    intros. nia.
Qed.


Lemma iter_pos_nat {A} (f : A -> A) (p : positive) (x : A) :
  iter_pos f p x = Nat.iter (Pos.to_nat p) f x.
Proof.
  revert x. induction p as [p IH|p IH|]; intros x; cbn [iter_pos].
  - rewrite !IH, Pos2Nat.inj_xI.
    replace (S (2 * Pos.to_nat p)) with (Pos.to_nat p + Pos.to_nat p + 1)%nat
      by lia.
    now rewrite !Nat.iter_add.
  - rewrite !IH, Pos2Nat.inj_xO.
    replace (2 * Pos.to_nat p)%nat with (Pos.to_nat p + Pos.to_nat p)%nat
      by lia.
    now rewrite Nat.iter_add.
  - reflexivity.
Qed.

Lemma shr_1_nonneg (m : Z) (r s : bool) :
  0 <= m ->
  shr_1 {| shr_m := m; shr_r := r; shr_s := s |} =
  {| shr_m := m / 2; shr_r := Z.odd m; shr_s := r || s |}.
Proof.
  intros H. rewrite <- Z.div2_div.
  destruct m as [|[p|p|]|p]; try reflexivity. lia.
Qed.

Lemma shifted_succ (m n : Z) :
  0 <= m -> 1 <= n -> shr_1 (shifted m n) = shifted m (n + 1).
Proof.
  intros Hm Hn. unfold shifted.
  assert (P : 0 < 2 ^ n) by (apply Z.pow_pos_nonneg; lia).
  destruct (pow2_half n Hn) as [E Hh].
  rewrite shr_1_nonneg by (apply Z.div_pos; lia).
  replace (n + 1 - 1) with n by lia.
  rewrite Z.div_div by lia.
  replace (2 ^ n * 2) with (2 ^ (n + 1))
    by (rewrite Z.pow_add_r by lia; reflexivity).
  assert (R : m mod 2 ^ (n + 1) = 2 ^ n * ((m / 2 ^ n) mod 2) + m mod 2 ^ n).
  { rewrite Z.pow_add_r by lia. change (2 ^ 1) with 2.
    rewrite Z.rem_mul_r by lia. lia. }
  pose proof (Z.mod_pos_bound m (2 ^ n) P) as B.
  pose proof (Z.mod_pos_bound (m / 2 ^ n) 2 ltac:(lia)) as B2.
  rewrite R. rewrite (Zmod_odd (m / 2 ^ n)) in *.
  destruct (Z.odd (m / 2 ^ n)); f_equal.
  - destruct (Z.leb_spec (2 ^ n) (2 ^ n * 1 + m mod 2 ^ n));
      try reflexivity; nia.
  - destruct (Z.leb_spec (2 ^ (n - 1)) (m mod 2 ^ n)),
             (Z.eqb_spec (m mod 2 ^ n) 0),
             (Z.eqb_spec (m mod 2 ^ n) (2 ^ (n - 1))),
             (Z.eqb_spec (2 ^ n * 1 + m mod 2 ^ n) 0),
             (Z.eqb_spec (2 ^ n * 1 + m mod 2 ^ n) (2 ^ n));
      simpl; try reflexivity; nia.
  - destruct (Z.leb_spec (2 ^ n) (2 ^ n * 0 + m mod 2 ^ n));
      try reflexivity; nia.
  - destruct (Z.leb_spec (2 ^ (n - 1)) (m mod 2 ^ n)),
             (Z.eqb_spec (m mod 2 ^ n) 0),
             (Z.eqb_spec (m mod 2 ^ n) (2 ^ (n - 1))),
             (Z.eqb_spec (2 ^ n * 0 + m mod 2 ^ n) 0),
             (Z.eqb_spec (2 ^ n * 0 + m mod 2 ^ n) (2 ^ n));
      simpl; try reflexivity; nia.
Qed.

Lemma iter_shr_1 (m : Z) (n : nat) :
  0 <= m -> (1 <= n)%nat ->
  Nat.iter n shr_1 {| shr_m := m; shr_r := false; shr_s := false |} =
  shifted m (Z.of_nat n).
Proof.
  intros Hm Hn. induction n as [|n IH]; [lia|].
  destruct n as [|n].
  - change (Nat.iter 1 shr_1 ?x) with (shr_1 x).
    rewrite shr_1_nonneg by assumption. unfold shifted.
    change (2 ^ Z.of_nat 1) with 2. change (2 ^ (Z.of_nat 1 - 1)) with 1.
    pose proof (Z.mod_pos_bound m 2 ltac:(lia)).
    rewrite (Zmod_odd m) in *. destruct (Z.odd m); reflexivity.
  - change (Nat.iter (S (S n)) shr_1 ?x) with (shr_1 (Nat.iter (S n) shr_1 x)).
    rewrite IH by lia. rewrite shifted_succ by lia. f_equal. lia.
Qed.

Lemma round_shifted (m n : Z) :
  1 <= n ->
  round_nearest_even (shr_m (shifted m n)) (loc_of_shr_record (shifted m n)) =
  rne m n.
Proof.
  intros Hn. destruct (pow2_half n Hn) as [E Hh].
  pose proof (Z.mod_pos_bound m (2 ^ n) ltac:(lia)) as B.
  unfold shifted, rne, loc_of_shr_record, round_nearest_even. simpl.
  destruct (Z.leb_spec (2 ^ (n - 1)) (m mod 2 ^ n)),
           (Z.ltb_spec (m mod 2 ^ n) (2 ^ (n - 1))),
           (Z.eqb_spec (m mod 2 ^ n) 0),
           (Z.eqb_spec (m mod 2 ^ n) (2 ^ (n - 1)));
    simpl; try reflexivity; lia.
Qed.


Lemma digits2_size (m : positive) : digits2_pos m = Pos.size m.
Proof. induction m; simpl; congruence. Qed.

Lemma digits2_log2 (m : positive) :
  Zpos (digits2_pos m) = Z.log2 (Zpos m) + 1.
Proof.
  rewrite digits2_size. destruct m; simpl; rewrite ?Pos2Z.inj_succ; lia.
Qed.

Lemma fexp_eq (x : Z) : fexp prec emax x = Z.max (x - 53) (-1074).
Proof. reflexivity. Qed.

Lemma shr_nonpos (mrs : shr_record) (e n : Z) : n <= 0 -> shr mrs e n = (mrs, e).
Proof. intros H. destruct n; try reflexivity. lia. Qed.

Lemma shr_pos (m e n : Z) :
  0 <= m -> 1 <= n ->
  shr {| shr_m := m; shr_r := false; shr_s := false |} e n =
  (shifted m n, e + n).
Proof.
  intros Hm Hn. destruct n as [|p|p]; try lia. unfold shr.
  rewrite iter_pos_nat, iter_shr_1 by lia. now rewrite positive_nat_Z.
Qed.

Lemma log2_lt_pow2 (m k : Z) : 0 < m -> Z.log2 m < k -> m < 2 ^ k.
Proof. intros Hm H. apply Z.log2_lt_pow2; lia. Qed.

Lemma second_stage (s : bool) (m1 e1 : Z) :
  0 <= m1 <= 2 ^ 53 -> -1074 <= e1 <= 960 -> lsb <= e1 ->
  represents (finish s (shr_fexp prec emax m1 e1 loc_Exact))
             (cond_Zopp s (m1 * 2 ^ (e1 - lsb))).
Proof.
  intros Hm He Hl. unfold shr_fexp. rewrite fexp_eq. simpl shr_record_of_loc.
  destruct (Z.eq_dec m1 0) as [->|Hz].
  - rewrite shr_nonpos by (simpl; lia). simpl. destruct s; constructor.
  - destruct (Z.eq_dec m1 (2 ^ 53)) as [->|Ht].
    + change (Zdigits2 (2 ^ 53)) with 54.
      replace (Z.max (54 + e1 - 53) (-1074) - e1) with 1 by lia.
      rewrite shr_pos by lia. unfold finish, shifted. simpl shr_m.
      change (2 ^ 53 / 2 ^ 1) with (Zpos (2 ^ 52)%positive).
      replace (e1 + 1 <=? emax - prec) with true
        by (symmetry; apply Z.leb_le; unfold emax, prec; lia).
      replace (2 ^ 53 * 2 ^ (e1 - lsb))
        with (Zpos (2 ^ 52)%positive * 2 ^ (e1 + 1 - lsb)).
      * constructor. lia.
      * replace (e1 + 1 - lsb) with (1 + (e1 - lsb)) by lia.
        rewrite Z.pow_add_r by (unfold lsb in *; lia).
        rewrite Z.mul_assoc. reflexivity.
    + destruct m1 as [|p|p]; try lia. simpl Zdigits2. rewrite digits2_log2.
      assert (Z.log2 (Zpos p) < 53).
      { apply Z.log2_lt_pow2; lia. }
      rewrite shr_nonpos by lia. unfold finish. simpl shr_m.
      replace (e1 <=? emax - prec) with true
        by (symmetry; apply Z.leb_le; unfold emax, prec; lia).
      now constructor.
Qed.

Lemma mod_pow2_mul (m j k : Z) :
  0 <= k <= j -> (m * 2 ^ j) mod 2 ^ k = 0.
Proof.
  intros H. replace j with ((j - k) + k) by lia.
  rewrite Z.pow_add_r by lia. rewrite Z.mul_assoc. apply Z.mod_mul.
  apply Z.pow_nonzero; lia.
Qed.

Lemma RN_exact (V k : Z) :
  ulp_shift V <= k -> V mod 2 ^ k = 0 -> RN V = V.
Proof.
  intros Hk Hd. unfold RN. pose proof (ulp_shift_pos V) as H1.
  assert (Hd' : V mod 2 ^ ulp_shift V = 0).
  { apply Z.mod_divide in Hd; [|apply Z.pow_nonzero; lia].
    destruct Hd as [c ->]. apply mod_pow2_mul. lia. }
  rewrite rne_exact by assumption.
  pose proof (Z.div_mod V (2 ^ ulp_shift V)
                ltac:(apply Z.pow_nonzero; lia)). lia.
Qed.

(** Rounding a positive mantissa to binary64. *)
Lemma binary_round_aux_scaled (s : bool) (m : positive) (e : Z) :
  lsb <= e -> Z.log2 (Zpos m) + e <= 900 ->
  represents (binary_round_aux prec emax s (Zpos m) e loc_Exact)
             (cond_Zopp s (RN (Zpos m * 2 ^ (e - lsb)))).
Proof.
  intros Hl Hb.
  change (binary_round_aux prec emax s (Zpos m) e loc_Exact)
    with (let '(mrs', e') := shr_fexp prec emax (Zpos m) e loc_Exact in
          finish s (shr_fexp prec emax
                      (round_nearest_even (shr_m mrs') (loc_of_shr_record mrs'))
                      e' loc_Exact)).
  pose proof (Z.log2_nonneg (Zpos m)) as Hlog.
  set (V := Zpos m * 2 ^ (e - lsb)).
  assert (Hj : 0 < 2 ^ (e - lsb)) by (apply Z.pow_pos_nonneg; lia).
  assert (HlogV : Z.log2 V = Z.log2 (Zpos m) + (e - lsb)).
  { unfold V. rewrite <- Z.shiftl_mul_pow2 by lia.
    apply Z.log2_shiftl; lia. }
  assert (Hk : ulp_shift V =
               Z.max (Z.log2 (Zpos m) + 1 + e - 53) (-1074) - e + (e - lsb)).
  { unfold ulp_shift. rewrite HlogV. unfold lsb. lia. }
  unfold shr_fexp at 1. rewrite fexp_eq. simpl shr_record_of_loc.
  simpl Zdigits2. rewrite digits2_log2.
  set (n := Z.max (Z.log2 (Zpos m) + 1 + e - 53) (-1074) - e) in *.
  destruct (Z.le_gt_cases n 0) as [Hn|Hn].
  - rewrite shr_nonpos by assumption. simpl.
    rewrite (RN_exact V (e - lsb)).
    + apply second_stage; try lia. split; [lia|].
      apply Z.lt_le_incl, log2_lt_pow2; lia.
    + lia.
    + unfold V. apply mod_pow2_mul. lia.
  - rewrite shr_pos by lia. rewrite round_shifted by lia.
    assert (E : RN V = rne (Zpos m) n * 2 ^ (e + n - lsb)).
    { unfold RN. rewrite Hk. unfold V.
      rewrite rne_shift by lia. f_equal. f_equal. lia. }
    rewrite E. apply second_stage; try lia.
    pose proof (rne_range (Zpos m) n ltac:(lia)) as [R1 R2].
    assert (0 <= Zpos m / 2 ^ n) by (apply Z.div_pos; [lia|apply Z.pow_pos_nonneg; lia]).
    assert (Zpos m / 2 ^ n < 2 ^ 53).
    { apply Z.div_lt_upper_bound; [apply Z.pow_pos_nonneg; lia|].
      rewrite <- Z.pow_add_r by lia. apply log2_lt_pow2; lia. }
    lia.
Qed.


Lemma RN_nonneg (V : Z) : 0 <= V -> 0 <= RN V.
Proof.
  intros H. unfold RN. pose proof (ulp_shift_pos V).
  pose proof (rne_range V (ulp_shift V) ltac:(lia)) as [R _].
  assert (0 <= V / 2 ^ ulp_shift V)
    by (apply Z.div_pos; [lia | apply Z.pow_pos_nonneg; lia]).
  apply Z.mul_nonneg_nonneg; [lia | apply Z.pow_nonneg; lia].
Qed.

Lemma RN0_mono (V V' : Z) : V <= V' -> RN0 V <= RN0 V'.
Proof.
  intros H. unfold RN0.
  destruct (Z.leb_spec V 0), (Z.leb_spec V' 0); try lia.
  - apply RN_nonneg. lia.
  - apply RN_mono; lia.
Qed.

Lemma shl_align_value (m : positive) (e e' : Z) :
  Zpos (fst (shl_align m e e')) = Zpos m * 2 ^ (e - Z.min e e') /\
  snd (shl_align m e e') = Z.min e e'.
Proof.
  unfold shl_align. destruct (e' - e) as [|d|d] eqn:E; cbn [fst snd].
  - replace (Z.min e e') with e by lia.
    rewrite Z.sub_diag, Z.pow_0_r, Z.mul_1_r. split; reflexivity.
  - replace (Z.min e e') with e by lia.
    rewrite Z.sub_diag, Z.pow_0_r, Z.mul_1_r. split; reflexivity.
  - replace (Z.min e e') with e' by lia.
    replace (e - e') with (Zpos d) by lia.
    change (Pos.iter xO m d) with (shift_pos d m).
    rewrite shift_pos_correct. change (Zpower_pos 2 d) with (2 ^ Zpos d).
    split; [apply Z.mul_comm | reflexivity].
Qed.

(** Rounding after the mantissa was widened. *)
Lemma binary_round_scaled (s : bool) (m : positive) (e : Z) :
  lsb <= e -> Z.log2 (Zpos m) + e <= 900 ->
  represents (binary_round prec emax s m e)
             (cond_Zopp s (RN (Zpos m * 2 ^ (e - lsb)))).
Proof.
  intros Hl Hb. unfold binary_round. rewrite fexp_eq.
  set (e' := Z.max (Zpos (digits2_pos m) + e - 53) (-1074)).
  destruct (shl_align_value m e e') as [Hm He].
  destruct (shl_align m e e') as [mz ez]. cbn [fst snd] in Hm, He.
  assert (Hez : lsb <= ez) by (unfold lsb, e' in *; lia).
  assert (Hv : Zpos mz * 2 ^ (ez - lsb) = Zpos m * 2 ^ (e - lsb)).
  { rewrite Hm, <- Z.mul_assoc, <- Z.pow_add_r by lia. f_equal. f_equal. lia. }
  rewrite <- Hv. apply binary_round_aux_scaled; [assumption|].
  rewrite Hm, <- Z.shiftl_mul_pow2, Z.log2_shiftl by lia. lia.
Qed.

Lemma binary_normalize_scaled (m e : Z) :
  lsb <= e -> 0 <= m -> Z.log2 m + e <= 900 ->
  represents (binary_normalize prec emax m e false) (RN0 (m * 2 ^ (e - lsb))).
Proof.
  intros Hl Hm Hb. destruct m as [|p|p]; try lia.
  - simpl. constructor.
  - unfold RN0.
    assert (0 < Zpos p * 2 ^ (e - lsb))
      by (apply Z.mul_pos_pos; [lia | apply Z.pow_pos_nonneg; lia]).
    destruct (Z.leb_spec (Zpos p * 2 ^ (e - lsb)) 0); [lia|].
    apply (binary_round_scaled false p e Hl Hb).
Qed.

Lemma cond_Zopp_mul (s : bool) (a b : Z) :
  cond_Zopp s a * b = cond_Zopp s (a * b).
Proof. destruct s; simpl; lia. Qed.

Lemma log2_le_pow2 (a k : Z) : 0 <= k -> a <= 2 ^ k -> Z.log2 a <= k.
Proof.
  intros Hk H. destruct (Z.le_gt_cases a 0) as [Ha|Ha].
  - rewrite Z.log2_nonpos; lia.
  - rewrite <- (Z.log2_pow2 k Hk). now apply Z.log2_le_mono.
Qed.

Section AddSub.
Variables (sx sy : bool) (mx my : positive) (ex ey : Z).
Hypothesis Hex : -1074 <= ex <= 100.
Hypothesis Hey : -1074 <= ey <= 100.

Local Abbreviation Vx := (cond_Zopp sx (Zpos mx * 2 ^ (ex - lsb))).
Local Abbreviation Vy := (cond_Zopp sy (Zpos my * 2 ^ (ey - lsb))).
Local Abbreviation ez := (Z.min ex ey).

Lemma aligned_sum (op : Z -> Z -> Z) :
  (forall a b c, op a b * c = op (a * c) (b * c)) ->
  0 <= op Vx Vy <= 2 ^ (800 - lsb) ->
  represents
    (binary_normalize prec emax
       (op (cond_Zopp sx (Zpos (fst (shl_align mx ex ez))))
           (cond_Zopp sy (Zpos (fst (shl_align my ey ez)))))
       ez false)
    (RN0 (op Vx Vy)).
Proof.
  intros Hop Hs.
  destruct (shl_align_value mx ex ez) as [-> _].
  destruct (shl_align_value my ey ez) as [-> _].
  replace (Z.min ex ez) with ez by lia.
  replace (Z.min ey ez) with ez by lia.
  set (S := op _ _).
  assert (Hz : lsb <= ez) by (unfold lsb; lia).
  assert (P : 0 < 2 ^ (ez - lsb)) by (apply Z.pow_pos_nonneg; lia).
  assert (E : S * 2 ^ (ez - lsb) = op Vx Vy).
  { unfold S. rewrite Hop, !cond_Zopp_mul, <- !Z.mul_assoc.
    rewrite <- !Z.pow_add_r by lia.
    now replace (ex - ez + (ez - lsb)) with (ex - lsb) by lia;
      replace (ey - ez + (ez - lsb)) with (ey - lsb) by lia. }
  assert (HS : 0 <= S).
  { destruct (Z.le_gt_cases 0 S) as [|Hneg]; [assumption|]. exfalso.
    pose proof (Z.mul_neg_pos S _ Hneg P) as N. rewrite E in N.
    destruct Hs as [Hs _]. now apply Z.lt_nge in N. }
  rewrite <- E. apply binary_normalize_scaled; [assumption | assumption |].
  assert (S <= 2 ^ (800 - ez)).
  { apply Z.mul_le_mono_pos_r with (p := 2 ^ (ez - lsb)); [assumption|].
    rewrite <- Z.pow_add_r by (unfold lsb in *; lia).
    replace (800 - ez + (ez - lsb)) with (800 - lsb) by lia. lia. }
  pose proof (log2_le_pow2 S (800 - ez) ltac:(lia) H). lia.
Qed.

Lemma SFadd_finite :
  0 <= Vx + Vy <= 2 ^ (800 - lsb) ->
  represents (SF64add (S754_finite sx mx ex) (S754_finite sy my ey))
             (RN0 (Vx + Vy)).
Proof. intros H. apply (aligned_sum Z.add); [intros; lia | exact H]. Qed.

Lemma SFsub_finite :
  0 <= Vx - Vy <= 2 ^ (800 - lsb) ->
  represents (SF64sub (S754_finite sx mx ex) (S754_finite sy my ey))
             (RN0 (Vx - Vy)).
Proof. intros H. apply (aligned_sum Z.sub); [intros; lia | exact H]. Qed.
End AddSub.

(** The product by a positive mantissa [my] at exponent [ey]. *)
Lemma SFmul_finite (mx my : positive) (ex ey : Z) :
  -1074 <= ex -> -100 <= ey <= 0 ->
  Zpos mx * 2 ^ (ex - lsb) <= 2 ^ (400 - lsb) -> Zpos my <= 2 ^ 400 ->
  represents (SF64mul (S754_finite false mx ex) (S754_finite false my ey))
             (RN0 (Zpos mx * 2 ^ (ex - lsb) * Zpos my / 2 ^ (- ey))).
Proof.
  intros Hex Hey Hb Hmy.
  change (SF64mul (S754_finite false mx ex) (S754_finite false my ey))
    with (binary_round_aux prec emax false (Zpos (mx * my)) (ex + ey) loc_Exact).
  assert (E : Zpos mx * 2 ^ (ex - lsb) * Zpos my / 2 ^ (- ey) =
              Zpos (mx * my) * 2 ^ (ex + ey - lsb)).
  { replace (ex - lsb) with ((ex + ey - lsb) + - ey) by lia.
    rewrite Z.pow_add_r by (unfold lsb; lia).
    rewrite Pos2Z.inj_mul.
    replace (Zpos mx * (2 ^ (ex + ey - lsb) * 2 ^ (- ey)) * Zpos my)
      with (Zpos mx * Zpos my * 2 ^ (ex + ey - lsb) * 2 ^ (- ey)) by lia.
    apply Z.div_mul. apply Z.pow_nonzero; lia. }
  rewrite E. unfold RN0.
  assert (0 < Zpos (mx * my) * 2 ^ (ex + ey - lsb))
    by (apply Z.mul_pos_pos; [lia | apply Z.pow_pos_nonneg; unfold lsb; lia]).
  destruct (Z.leb_spec (Zpos (mx * my) * 2 ^ (ex + ey - lsb)) 0); [lia|].
  apply (binary_round_aux_scaled false); [unfold lsb; lia|].
  assert (L1 : Z.log2 (Zpos mx) + (ex - lsb) <= 400 - lsb).
  { rewrite <- Z.log2_shiftl, Z.shiftl_mul_pow2 by (unfold lsb; lia).
    apply log2_le_pow2; [unfold lsb; lia | assumption]. }
  assert (L2 : Z.log2 (Zpos my) <= 400) by (apply log2_le_pow2; lia).
  rewrite Pos2Z.inj_mul.
  pose proof (Z.log2_mul_above (Zpos mx) (Zpos my) ltac:(lia) ltac:(lia)).
  lia.
Qed.


Lemma bounded_facts (m : positive) (e : Z) :
  bounded prec emax m e = true ->
  -1074 <= e <= 971 /\ Zpos m < 2 ^ 53 /\ (-1074 < e -> 2 ^ 52 <= Zpos m).
Proof.
  unfold bounded, canonical_mantissa. rewrite fexp_eq, digits2_log2.
  intros H. apply andb_true_iff in H as [C B].
  apply Z.eqb_eq in C. apply Z.leb_le in B. change (emax - prec) with 971 in B.
  pose proof (Z.log2_nonneg (Zpos m)).
  repeat split; try lia.
  - apply log2_lt_pow2; lia.
  - intros He. replace 52 with (Z.log2 (Zpos m)) by lia.
    apply Z.log2_spec. lia.
Qed.

Lemma valid_represents (f : spec_float) :
  valid_binary f = true -> finite f = true ->
  represents f (scaled f).
Proof.
  destruct f as [s|s| |s m e]; simpl; intros Hv Hf; try discriminate.
  - constructor.
  - constructor. apply bounded_facts in Hv. lia.
Qed.

Lemma represents_scaled (f : spec_float) (V : Z) :
  represents f V -> V = scaled f /\ finite f = true.
Proof. intros H. destruct H; simpl; auto. Qed.

Lemma pow2_lt (a b : Z) : 0 <= a -> a < b -> 2 * 2 ^ a <= 2 ^ b.
Proof.
  intros Ha Hab. rewrite <- Z.pow_succ_r by lia.
  apply Z.pow_le_mono_r; lia.
Qed.

(** On valid numbers the comparison of the decoded forms is the order of
    the values. *)
Lemma SFleb_scaled (x y : spec_float) :
  valid_binary x = true -> valid_binary y = true ->
  finite x = true -> finite y = true ->
  SFleb x y = true -> scaled x <= scaled y.
Proof.
  destruct x as [sx|sx| |sx mx ex], y as [sy|sy| |sy my ey];
    cbn [SpecFloat.valid_binary finite scaled]; intros Vx Vy Fx Fy;
    try discriminate; unfold SFleb, SFcompare.
  - destruct sy; [discriminate|]. intros _.
    assert (0 < 2 ^ (ey - lsb))
      by (apply Z.pow_pos_nonneg; apply bounded_facts in Vy; unfold lsb; lia).
    cbn [cond_Zopp]. lia.
  - destruct sx; [|discriminate]. intros _.
    assert (0 < 2 ^ (ex - lsb))
      by (apply Z.pow_pos_nonneg; apply bounded_facts in Vx; unfold lsb; lia).
    cbn [cond_Zopp]. lia.
  - apply bounded_facts in Vx as (Ex & Mx & Nx), Vy as (Ey & My & Ny).
    assert (Px : 0 < 2 ^ (ex - lsb)) by (apply Z.pow_pos_nonneg; unfold lsb; lia).
    assert (Py : 0 < 2 ^ (ey - lsb)) by (apply Z.pow_pos_nonneg; unfold lsb; lia).
    rewrite Pos.compare_cont_spec. cbn [Pos.switch_Eq].
    destruct sx, sy; cbn [cond_Zopp]; try discriminate; try lia;
      destruct (Z.compare_spec ex ey) as [E|L|L]; try discriminate;
      try (subst ey; destruct (Pos.compare_spec mx my); cbn [CompOpp];
           try discriminate; intros _; nia).
    + intros _. specialize (Nx ltac:(lia)).
      pose proof (pow2_lt (ey - lsb) (ex - lsb) ltac:(unfold lsb; lia) ltac:(lia)).
      change (2 ^ 53) with (2 * 2 ^ 52) in *. nia.
    + intros _. specialize (Ny ltac:(lia)).
      pose proof (pow2_lt (ex - lsb) (ey - lsb) ltac:(unfold lsb; lia) ltac:(lia)).
      change (2 ^ 53) with (2 * 2 ^ 52) in *. nia.
Qed.


Lemma V1_pos : 0 < V1.
Proof. reflexivity. Qed.

Lemma stepA_mono (V V' : Z) : V <= V' -> stepA V <= stepA V'.
Proof. intros H. apply RN0_mono. lia. Qed.

Lemma stepB_mono (V V' : Z) : V <= V' -> stepB V <= stepB V'.
Proof.
  intros H. apply RN0_mono. apply Z.div_le_mono; [reflexivity|]. lia.
Qed.

Lemma stepC_anti (V V' : Z) : V <= V' -> stepC V' <= stepC V.
Proof. intros H. apply RN0_mono. lia. Qed.

Lemma stepD_mono (V V' : Z) : V <= V' -> stepD V <= stepD V'.
Proof.
  intros H. apply RN0_mono. apply Z.div_le_mono; [reflexivity|]. lia.
Qed.

Lemma steps_ends :
  stepA (- V1) = 0 /\ stepA V1 = 2 * V1 /\ stepA 0 = V1 /\
  stepB 0 = 0 /\ stepB (2 * V1) = 9 * V1 /\
  stepC 0 = 10 * V1 /\ stepC (9 * V1) = V1 /\
  stepD V1 = 10 * V1 /\ stepD (10 * V1) = 100 * V1.
Proof. repeat split; vm_compute; reflexivity. Qed.

Lemma exponent_le (m : positive) (e k : Z) :
  lsb <= e -> lsb <= k -> Zpos m * 2 ^ (e - lsb) <= 2 ^ (k - lsb) -> e <= k.
Proof.
  intros He Hk H.
  assert (P : 0 < 2 ^ (e - lsb)) by (apply Z.pow_pos_nonneg; lia).
  assert (2 ^ (e - lsb) <= 2 ^ (k - lsb)) by nia.
  apply Z.pow_le_mono_r_iff in H0; lia.
Qed.

(** A number between -1 and 1 is zero or finite, and so is its value. *)
Lemma in_range_value (x : float) :
  in_range x ->
  finite (Prim2SF x) = true /\ - V1 <= value x <= V1.
Proof.
  intros [Hlo Hhi]. rewrite FloatAxioms.leb_spec in Hlo, Hhi.
  pose proof (Prim2SF_valid x) as Hv.
  assert (Hf : finite (Prim2SF x) = true).
  { destruct (Prim2SF x) as [s|[]| |s m e]; try reflexivity; discriminate. }
  split; [exact Hf|]. unfold value. split.
  - apply (SFleb_scaled (Prim2SF (-1)) (Prim2SF x)) in Hlo;
      try assumption; reflexivity.
  - apply (SFleb_scaled (Prim2SF x) (Prim2SF 1)) in Hhi;
      try assumption; reflexivity.
Qed.

Lemma represents_nonneg (f : spec_float) (V : Z) :
  represents f V -> 0 <= V ->
  (exists s, f = S754_zero s /\ V = 0) \/
  (exists m e, f = S754_finite false m e /\ -1074 <= e /\
               V = Zpos m * 2 ^ (e - lsb) /\ 0 < V).
Proof.
  intros H HV. destruct H as [s|s m e He]; [left; now exists s|].
  assert (P : 0 < 2 ^ (e - lsb)) by (apply Z.pow_pos_nonneg; unfold lsb; lia).
  assert (Q : 0 < Zpos m * 2 ^ (e - lsb)) by (apply Z.mul_pos_pos; lia).
  right. exists m, e. destruct s; cbn [cond_Zopp] in *; [lia|].
  repeat split; try lia.
Qed.

Lemma add_one (x : float) :
  in_range x -> represents (Prim2SF (x + 1)) (stepA (value x)).
Proof.
  intros Hx. destruct (in_range_value x Hx) as [Hf [Hlo Hhi]].
  pose proof (Prim2SF_valid x) as Hv. pose proof V1_pos.
  rewrite FloatAxioms.add_spec. unfold value in *.
  destruct (Prim2SF x) as [s|s| |s m e]; try discriminate.
  - change (represents (Prim2SF 1) (stepA 0)).
    destruct steps_ends as (_ & _ & -> & _).
    apply (represents_finite false 4503599627370496 (-52)). lia.
  - cbn [scaled] in *. apply bounded_facts in Hv as (He & _).
    assert (e <= 0).
    { apply (exponent_le m); try (unfold lsb; lia).
      change (2 ^ (0 - lsb)) with V1.
      destruct s; cbn [cond_Zopp] in *; lia. }
    change (Prim2SF 1) with (S754_finite false 4503599627370496 (-52)).
    unfold stepA.
    change V1 with (cond_Zopp false (4503599627370496 * 2 ^ (-52 - lsb))).
    apply SFadd_finite; try lia.
    change (cond_Zopp false (4503599627370496 * 2 ^ (-52 - lsb))) with V1.
    split; [lia|]. change (2 ^ (800 - lsb)) with (2 ^ 800 * V1). nia.
Qed.

Lemma mul_const (a c : float) (mc : positive) (ec Va : Z) :
  Prim2SF c = S754_finite false mc ec -> -100 <= ec <= 0 ->
  Zpos mc <= 2 ^ 400 ->
  represents (Prim2SF a) Va -> 0 <= Va <= 2 ^ 10 * V1 ->
  represents (Prim2SF (a * c)) (RN0 (Va * Zpos mc / 2 ^ (- ec))).
Proof.
  intros Hc Hec Hmc Ha HVa. rewrite FloatAxioms.mul_spec, Hc.
  apply represents_nonneg in Ha as [(s & -> & ->)|(m & e & -> & He & -> & Hp)];
    [| |lia].
  - simpl. constructor.
  - apply SFmul_finite; try lia.
    change (2 ^ (400 - lsb)) with (2 ^ 400 * V1). nia.
Qed.

Lemma sub_ten (b : float) (Vb : Z) :
  represents (Prim2SF b) Vb -> 0 <= Vb <= 9 * V1 ->
  represents (Prim2SF (10 - b)) (stepC Vb).
Proof.
  intros Hb HVb. rewrite FloatAxioms.sub_spec. pose proof V1_pos.
  apply represents_nonneg in Hb as [(s & -> & ->)|(m & e & -> & He & -> & Hp)];
    [| |lia].
  - change (represents (Prim2SF 10) (stepC 0)).
    destruct steps_ends as (_ & _ & _ & _ & _ & -> & _).
    apply (represents_finite false 5629499534213120 (-49)). lia.
  - assert (e <= 10).
    { apply (exponent_le m); try (unfold lsb; lia).
      change (2 ^ (10 - lsb)) with (2 ^ 10 * V1). lia. }
    change (Prim2SF 10) with (S754_finite false 5629499534213120 (-49)).
    unfold stepC.
    change (10 * V1)
      with (cond_Zopp false (5629499534213120 * 2 ^ (-49 - lsb))).
    change (Zpos m * 2 ^ (e - lsb))
      with (cond_Zopp false (Zpos m * 2 ^ (e - lsb))).
    apply SFsub_finite; try lia.
    change (cond_Zopp false (5629499534213120 * 2 ^ (-49 - lsb)))
      with (10 * V1).
    cbn [cond_Zopp]. split; [lia|].
    change (2 ^ (800 - lsb)) with (2 ^ 800 * V1). nia.
Qed.

Lemma tenfold_represents (x : float) :
  in_range x ->
  represents (Prim2SF (tenfold x)) (tenfold_value (value x)) /\
  10 * V1 <= tenfold_value (value x) <= 100 * V1.
Proof.
  intros Hx. destruct (in_range_value x Hx) as [_ [Hlo Hhi]].
  destruct steps_ends as (A0 & A1 & _ & B0 & B1 & C0 & C1 & D0 & D1).
  pose proof V1_pos.
  pose proof (stepA_mono _ _ Hlo) as Ha0. pose proof (stepA_mono _ _ Hhi) as Ha1.
  rewrite A0 in Ha0. rewrite A1 in Ha1.
  pose proof (stepB_mono _ _ Ha0) as Hb0. pose proof (stepB_mono _ _ Ha1) as Hb1.
  rewrite B0 in Hb0. rewrite B1 in Hb1.
  pose proof (stepC_anti _ _ Hb0) as Hc0. pose proof (stepC_anti _ _ Hb1) as Hc1.
  rewrite C0 in Hc0. rewrite C1 in Hc1.
  pose proof (stepD_mono _ _ Hc0) as Hd0. pose proof (stepD_mono _ _ Hc1) as Hd1.
  rewrite D1 in Hd0. rewrite D0 in Hd1.
  split; [|unfold tenfold_value; lia].
  pose proof (add_one x Hx) as Ra.
  assert (Rb : represents (Prim2SF ((x + 1) * 4.5))
                          (stepB (stepA (value x)))).
  { apply (mul_const _ 4.5 5066549580791808 (-50) _ eq_refl);
      [lia | now apply Z.leb_le | exact Ra | lia]. }
  pose proof (sub_ten _ _ Rb ltac:(lia)) as Rc.
  apply (mul_const _ 10 5629499534213120 (-49) _ eq_refl);
    [lia | now apply Z.leb_le | exact Rc | lia].
Qed.


Lemma SFcompare_swap (a b : spec_float) :
  SFcompare b a = option_map CompOpp (SFcompare a b).
Proof.
  unfold SFcompare.
  destruct a as [sa|sa| |sa ma ea], b as [sb|sb| |sb mb eb];
    try destruct sa; try destruct sb; try reflexivity;
    rewrite !Pos.compare_cont_spec; cbn [Pos.switch_Eq option_map];
    rewrite (Z.compare_antisym ea eb), (Pos.compare_antisym ma mb);
    destruct (ea ?= eb); cbn [CompOpp]; try reflexivity;
    destruct (ma ?= mb)%positive; reflexivity.
Qed.

Lemma leb_not_ltb (x y : float) :
  (x <=? y)%float = true -> (y <? x)%float = false.
Proof.
  rewrite FloatAxioms.leb_spec, FloatAxioms.ltb_spec.
  unfold SFleb, SFltb. rewrite (SFcompare_swap (Prim2SF x) (Prim2SF y)).
  destruct (SFcompare (Prim2SF x) (Prim2SF y)) as [[]|];
    try reflexivity; discriminate.
Qed.

Lemma leb_not_nan (x y : float) :
  (x <=? y)%float = true -> is_nan x = false /\ is_nan y = false.
Proof.
  unfold is_nan. rewrite FloatAxioms.leb_spec, !FloatAxioms.eqb_spec.
  unfold SFleb, SFeqb, SFcompare.
  destruct (Prim2SF x) as [sa|sa| |sa ma ea], (Prim2SF y) as [sb|sb| |sb mb eb];
    try discriminate; intros _;
    try destruct sa; try destruct sb;
    rewrite ?Z.compare_refl, ?Pos.compare_cont_refl; split; reflexivity.
Qed.

(** The clamp leaves a score between -1 and 1 as it is. *)
Lemma clamp_in_range (x : float) :
  in_range x -> JsMath.max (-1) (JsMath.min 1 x) = x.
Proof.
  intros [Hlo Hhi].
  destruct (leb_not_nan _ _ Hhi) as [Hn _].
  assert (E : JsMath.min 1 x = x).
  { unfold JsMath.min. rewrite Hn, (leb_not_ltb _ _ Hhi).
    change (is_nan 1) with false. change (get_sign 1) with false.
    cbn [orb]. now destruct (x <? 1)%float. }
  rewrite E. unfold JsMath.max. rewrite Hn, (leb_not_ltb _ _ Hlo).
  change (is_nan (-1)) with false. change (get_sign (-1)) with true.
  cbn [orb]. now destruct (-1 <? x)%float.
Qed.

Lemma nearest_mono (V V' : Z) : V <= V' -> nearest V <= nearest V'.
Proof.
  intros H. apply Z.div_le_mono; [|lia]. pose proof V1_pos. lia.
Qed.

Lemma nearest_scaled (m e : Z) :
  lsb <= e <= 0 ->
  (2 * m + 2 ^ (- e)) / 2 ^ (1 - e) = nearest (m * 2 ^ (e - lsb)).
Proof.
  intros He. unfold nearest.
  rewrite <- (Z.div_mul_cancel_r _ (2 ^ (1 - e)) (2 ^ (e - lsb)));
    try (apply Z.pow_nonzero; unfold lsb in *; lia).
  f_equal.
  - rewrite Z.mul_add_distr_r, <- Z.pow_add_r by (unfold lsb in *; lia).
    replace (- e + (e - lsb)) with (- lsb) by lia. fold V1. lia.
  - rewrite <- Z.pow_add_r by (unfold lsb in *; lia).
    replace (1 - e + (e - lsb)) with (1 + - lsb) by lia.
    rewrite Z.pow_add_r by (unfold lsb; lia). reflexivity.
Qed.

Lemma round_represents (u : float) (V : Z) :
  represents (Prim2SF u) V -> 10 * V1 <= V <= 100 * V1 ->
  JsMath.round u = JsMath.of_Z (nearest V) /\ 10 <= nearest V <= 100.
Proof.
  intros Hr HV. pose proof V1_pos as H1.
  assert (B : 10 <= nearest V <= 100).
  { split.
    - change 10 with (nearest (10 * V1)). apply nearest_mono. lia.
    - change 100 with (nearest (100 * V1)). apply nearest_mono. lia. }
  split; [|exact B].
  pose proof (Prim2SF_valid u) as Hv. unfold JsMath.round.
  apply represents_nonneg in Hr as [(s & _ & ->)|(m & e & E & He & -> & Hp)];
    [lia| |lia].
  rewrite E in *. cbn [SpecFloat.valid_binary] in Hv.
  apply bounded_facts in Hv as (_ & Hm & Hn).
  assert (P : 0 < 2 ^ (e - lsb)) by (apply Z.pow_pos_nonneg; unfold lsb; lia).
  assert (Hneg : e < 0).
  { destruct (Z.lt_ge_cases e 0) as [|Hge]; [assumption|]. exfalso.
    specialize (Hn ltac:(lia)).
    assert (V1 <= 2 ^ (e - lsb)).
    { unfold V1. apply Z.pow_le_mono_r; lia. }
    change (2 ^ 52) with 4503599627370496 in Hn. nia. }
  destruct (Z.leb_spec 0 e); [lia|]. cbn [cond_Zopp].
  pose proof (nearest_scaled (Zpos m) e ltac:(unfold lsb; lia)) as N.
  rewrite N. destruct (Z.eqb_spec (nearest (Zpos m * 2 ^ (e - lsb))) 0);
    [lia | reflexivity].
Qed.


Lemma decimals_In (k : Z) : 10 <= k <= 100 -> In k decimals.
Proof.
  intros H. unfold decimals. apply in_map_iff. exists (Z.to_nat k).
  split; [lia|]. apply in_seq. lia.
Qed.

Lemma tenths_monotone (k1 k2 : Z) :
  10 <= k1 <= 100 -> 10 <= k2 <= 100 -> k1 <= k2 ->
  (JsMath.of_Z k1 / 10 <=? JsMath.of_Z k2 / 10)%float = true.
Proof.
  intros H1 H2 H.
  assert (T : forallb (fun a => forallb (fun b =>
                implb (a <=? b)
                      (JsMath.of_Z a / 10 <=? JsMath.of_Z b / 10)%float)
                decimals) decimals = true) by (vm_compute; reflexivity).
  rewrite forallb_forall in T. specialize (T k1 (decimals_In k1 H1)).
  rewrite forallb_forall in T. specialize (T k2 (decimals_In k2 H2)).
  apply Z.leb_le in H. now rewrite H in T.
Qed.

Lemma tenfold_value_anti (V V' : Z) :
  V <= V' -> tenfold_value V' <= tenfold_value V.
Proof.
  intros H. unfold tenfold_value.
  now apply stepD_mono, stepC_anti, stepB_mono, stepA_mono.
Qed.

Lemma convertToTenScale_in_range (x : float) :
  in_range x ->
  convertToTenScale x = (JsMath.round (tenfold x) / 10)%float /\
  JsMath.round (tenfold x) =
    JsMath.of_Z (nearest (tenfold_value (value x))) /\
  10 <= nearest (tenfold_value (value x)) <= 100.
Proof.
  intros Hx. unfold convertToTenScale. rewrite (clamp_in_range x Hx).
  split; [reflexivity|].
  destruct (tenfold_represents x Hx) as [Hr Hb].
  exact (round_represents _ _ Hr Hb).
Qed.

Lemma convertToTenScale_monotone (x y : float) :
  in_range x -> in_range y -> (x <=? y)%float = true ->
  (convertToTenScale y <=? convertToTenScale x)%float = true.
Proof.
  intros Hx Hy Hxy.
  destruct (convertToTenScale_in_range x Hx) as (-> & -> & Bx).
  destruct (convertToTenScale_in_range y Hy) as (-> & -> & By).
  apply tenths_monotone; try assumption.
  apply nearest_mono, tenfold_value_anti.
  destruct (in_range_value x Hx) as [Fx _].
  destruct (in_range_value y Hy) as [Fy _].
  rewrite FloatAxioms.leb_spec in Hxy.
  apply SFleb_scaled; try assumption; apply Prim2SF_valid.
Qed.


End Binary64Facts.

(** ** The score normalizer *)

Section TenScale.
Import Binary64.
Local Open Scope float_scope.

Lemma ltb_leb (x y : float) : (x <? y) = true -> (x <=? y) = true.
Proof.
  rewrite FloatAxioms.ltb_spec, FloatAxioms.leb_spec. unfold SFltb, SFleb.
  destruct (SFcompare (Prim2SF x) (Prim2SF y)) as [[]|];
    try reflexivity; discriminate.
Qed.

(** Below -1 the clamp gives -1, above 1 it gives 1. *)
Lemma clamp_below (x : float) :
  (x <? -1) = true -> JsMath.max (-1) (JsMath.min 1 x) = -1.
Proof.
  intros H. pose proof (ltb_leb _ _ H) as Hle.
  destruct (leb_not_nan _ _ Hle) as [Hn _].
  assert (H1 : (x <? 1) = true) by (apply (ltb_trans x (-1) 1 H); reflexivity).
  assert (E : JsMath.min 1 x = x).
  { unfold JsMath.min.
    rewrite Hn, (leb_not_ltb _ _ (ltb_leb _ _ H1)), H1.
    reflexivity. }
  rewrite E. unfold JsMath.max. rewrite Hn, (leb_not_ltb _ _ Hle), H.
  reflexivity.
Qed.

Lemma clamp_above (x : float) :
  (1 <? x) = true -> JsMath.max (-1) (JsMath.min 1 x) = 1.
Proof.
  intros H. destruct (leb_not_nan _ _ (ltb_leb _ _ H)) as [_ Hn].
  assert (E : JsMath.min 1 x = 1).
  { unfold JsMath.min. rewrite Hn, H. reflexivity. }
  rewrite E. reflexivity.
Qed.

End TenScale.


(** * Part III: properties of the components *)

(** ** What a reducer builds from any keys *)

Section GroupingAll.
Local Open Scope string_scope.

Lemma append_one_nonempty (s : string) : String.eqb (s ++ "1") "" = false.
Proof. destruct s; reflexivity. Qed.

Lemma append_assoc (a b c : string) : (a ++ b) ++ c = a ++ (b ++ c).
Proof. induction a as [|x a IH]; simpl; [reflexivity|]. now rewrite IH. Qed.

Lemma incr_stored (k : string) (n : nat) (o : Js.object) :
  Js.own o k = Some (stored k (S n)) -> Js.incr o k = stored k (S (S n)).
Proof.
  intros E. unfold Js.incr. rewrite E. unfold stored.
  destruct (Js.inherited k) as [text|]; [|now rewrite Nat.add_1_r].
  simpl ones. rewrite <- !append_assoc, append_one_nonempty. reflexivity.
Qed.

Lemma kept_In (k : string) (ks : list string) :
  In k (kept ks) <-> In k ks /\ k <> "__proto__".
Proof.
  unfold kept. rewrite filter_In, firsts_In, negb_true_iff, String.eqb_neq.
  reflexivity.
Qed.

Lemma kept_NoDup (ks : list string) : NoDup (kept ks).
Proof. apply NoDup_filter, firsts_NoDup. Qed.

Lemma kept_snoc (ks : list string) (k : string) :
  kept (ks ++ [k]) =
  if in_dec string_dec k ks then kept ks
  else if String.eqb k "__proto__" then kept ks
  else (kept ks ++ [k])%list.
Proof.
  unfold kept. rewrite firsts_snoc.
  destruct (in_dec string_dec k ks); [reflexivity|].
  rewrite filter_app. simpl.
  destruct (String.eqb k "__proto__"); simpl; [apply app_nil_r | reflexivity].
Qed.

Lemma occurrences_pos (k : string) (ks : list string) :
  In k ks -> exists n, occurrences k ks = S n.
Proof.
  intros H. apply (count_occ_In string_dec) in H. fold (occurrences k ks) in H.
  destruct (occurrences k ks) as [|n]; [lia | now exists n].
Qed.

(** The object a reducer builds, whatever the keys: each distinct key but
    [__proto__] once, where it was first met, with what [stored] says. *)
Lemma group_stored (ks : list string) :
  group ks = map (fun k => (k, stored k (occurrences k ks))) (kept ks).
Proof.
  induction ks as [|k ks IH] using rev_ind; [reflexivity|].
  unfold group in *. rewrite fold_left_app. simpl. rewrite IH.
  rewrite kept_snoc.
  assert (Hother : forall k', k' <> k ->
            occurrences k' (ks ++ [k]) = occurrences k' ks).
  { intros k' Hne. rewrite occurrences_snoc.
    destruct (string_dec k k') as [->|]; [contradiction | apply Nat.add_0_r]. }
  assert (Hsame : occurrences k (ks ++ [k]) = S (occurrences k ks)).
  { rewrite occurrences_snoc. destruct (string_dec k k); [lia | congruence]. }
  unfold Js.set.
  destruct (in_dec string_dec k ks) as [Hin|Hin].
  - destruct (String.eqb_spec k "__proto__") as [Hk|Hk].
    + rewrite own_map_notin by (rewrite kept_In; tauto).
      apply map_ext_in. intros k' Hk'. apply kept_In in Hk' as [_ Hk'].
      rewrite Hother; congruence.
    + assert (Hkept : In k (kept ks)) by (apply kept_In; tauto).
      rewrite (own_map_In (fun k' => stored k' (occurrences k' ks)) _ _ Hkept).
      destruct (occurrences_pos _ _ Hin) as [n En].
      rewrite (incr_stored k n)
        by (rewrite (own_map_In (fun k' => stored k' (occurrences k' ks)) _ _ Hkept);
            now rewrite En).
      assert (E : stored k (S (S n)) =
                  (fun k' => stored k' (occurrences k' (ks ++ [k]))) k)
        by (now rewrite Hsame, En).
      rewrite E.
      apply (replace_map (fun k' => stored k' (occurrences k' ks))
               (fun k' => stored k' (occurrences k' (ks ++ [k]))));
        [apply kept_NoDup|].
      intros k' _ Hne. now rewrite Hother.
  - rewrite own_map_notin by (rewrite kept_In; tauto).
    destruct (String.eqb_spec k "__proto__") as [Hk|Hk].
    + apply map_ext_in. intros k' Hk'. apply kept_In in Hk' as [_ Hk'].
      rewrite Hother; congruence.
    + rewrite map_app. simpl. rewrite Hsame, (occurrences_notin _ _ Hin).
      f_equal.
      * apply map_ext_in. intros k' Hk'. apply kept_In in Hk' as [Hk' _].
        rewrite Hother; [reflexivity|]. intros ->. contradiction.
      * unfold Js.incr. rewrite own_map_notin by (rewrite kept_In; tauto).
        unfold stored. now destruct (Js.inherited k).
Qed.
End GroupingAll.

(** ** The service chart, whatever the service names *)

Section ServiceBuckets.
Local Open Scope string_scope.

Lemma getServiceData_stored (anomalies : list LogEntry) :
  getServiceData anomalies =
  Js.slice_first 5
    (Js.sort (fun a b => Js.sub (Service.count b) (Service.count a))
       (map bucket
          (Js.entries
             (map (fun k => (k, stored k (occurrences k (map serviceName anomalies))))
                  (kept (map serviceName anomalies)))))).
Proof.
  unfold getServiceData. rewrite (fold_group serviceName).
  change (fold_left _ (map serviceName anomalies) [])
    with (group (map serviceName anomalies)).
  rewrite group_stored. f_equal. f_equal. apply map_ext. now intros [k v].
Qed.

Lemma getServiceData_In (anomalies : list LogEntry) (p : Service.point) :
  In p (getServiceData anomalies) ->
  In (Service.service p) (kept (map serviceName anomalies)) /\
  Service.count p =
    stored (Service.service p)
      (occurrences (Service.service p) (map serviceName anomalies)).
Proof.
  rewrite getServiceData_stored. intros H.
  apply firstn_In, sort_In, in_map_iff in H as ([k v] & <- & H).
  apply (Permutation_in _ (entries_perm _)), in_map_iff in H as (k' & E & H).
  inversion E; subst. simpl. auto.
Qed.

Lemma getServiceData_bars (anomalies : list LogEntry) :
  List.length (getServiceData anomalies) =
  Nat.min 5 (List.length (kept (map serviceName anomalies))).
Proof.
  rewrite getServiceData_stored. unfold Js.slice_first.
  rewrite length_firstn, sort_length, length_map.
  rewrite (Permutation_length (entries_perm _)), length_map. reflexivity.
Qed.

(** X1. A click on a bar of the service chart selects as many records as
    the bar counts, when no service name is the name of a member of
    [Object.prototype]: the count of every bucket of [getServiceData] is
    the length of the list that [handleServiceClick] stores for its
    service. *)
Theorem handleServiceClick_count (st : State) (p : Service.point) :
  Forall plain (map serviceName (anomalies st)) ->
  In p (getServiceData (anomalies st)) ->
  Service.count p =
  Js.Num (List.length
            (filteredLogs (handleServiceClick (Service.service p) st))).
Proof.
  intros Hp H. apply getServiceData_In in H as [Hk E].
  apply kept_In in Hk as [Hk _].
  rewrite Forall_forall in Hp. specialize (Hp _ Hk).
  rewrite E. unfold stored. rewrite Hp. simpl.
  now rewrite occurrences_filter.
Qed.

Lemma handleServiceClick_count_witness :
  let st := {| anomalies := [entry "auth" (-0.6) "fatal exception";
                             entry "billing" (-0.1) "connection lost";
                             entry "auth" (-0.3) "timeout"];
               filteredLogs := [] |} in
  let p := {| Service.service := "auth"; Service.count := Js.Num 2 |} in
  Service.count p =
  Js.Num (List.length
            (filteredLogs (handleServiceClick (Service.service p) st))).
Proof.
  intros st p. apply (handleServiceClick_count st p).
  - repeat constructor.
  - left. reflexivity.
Defined.

(** X7. Service names that are names of members of [Object.prototype].
    No bar is ever labelled [__proto__]: the records of a service of that
    name are left out of the chart.  A bar whose service has the name of
    another member ([constructor], [toString], ...) carries no number but a
    string: the text of that member followed by one digit 1 for each record
    of the service. *)
Theorem getServiceData_inherited (anomalies : list LogEntry) :
  ~ In "__proto__" (map Service.service (getServiceData anomalies)) /\
  (forall p text,
      In p (getServiceData anomalies) ->
      Js.inherited (Service.service p) = Some text ->
      Service.count p =
      Js.Str (text ++
              ones (List.length
                      (filter (fun a => String.eqb (serviceName a)
                                                   (Service.service p))
                              anomalies)))).
Proof.
  split.
  - intros H. apply in_map_iff in H as (p & E & H).
    apply getServiceData_In in H as [H _]. rewrite E in H.
    apply kept_In in H as [_ H]. now apply H.
  - intros p text H Ht. apply getServiceData_In in H as [_ E].
    unfold stored in E. rewrite Ht in E.
    now rewrite E, occurrences_filter.
Qed.
End ServiceBuckets.

(** ** The click on a segment of the category chart *)

Section CategoryClick.
Local Open Scope string_scope.

Ltac keywords a :=
  unfold inCategory, classify, categoryOf;
  destruct (Js.includes (Js.toLowerCase (message a)) "error"),
           (Js.includes (Js.toLowerCase (message a)) "exception"),
           (Js.includes (Js.toLowerCase (message a)) "timeout"),
           (Js.includes (Js.toLowerCase (message a)) "connection"),
           (Js.includes (Js.toLowerCase (message a)) "unavailable"),
           (Js.includes (Js.toLowerCase (message a)) "fail");
  reflexivity.

(** The filter accepts the records of the clicked category. *)
Lemma inCategory_classify (a : LogEntry) :
  inCategory (classify (message a)) a = true.
Proof. keywords a. Qed.

Lemma inCategory_Errors (a : LogEntry) :
  inCategory "Errors" a = String.eqb (classify (message a)) "Errors".
Proof. keywords a. Qed.

Lemma inCategory_Other (a : LogEntry) :
  inCategory "Other" a = String.eqb (classify (message a)) "Other".
Proof. keywords a. Qed.

Lemma filter_length_mono {A} (f g : A -> bool) (l : list A) :
  (forall x, In x l -> f x = true -> g x = true) ->
  List.length (filter f l) <= List.length (filter g l).
Proof.
  induction l as [|x l IH]; simpl; intros H; [lia|].
  assert (IH' := IH (fun y Hy => H y (or_intror Hy))).
  destruct (f x) eqn:Ef.
  - rewrite (H x (or_introl eq_refl) Ef). simpl. lia.
  - destruct (g x); simpl; lia.
Qed.

Lemma getCategoryData_value (anomalies : list LogEntry) (p : Category.point) :
  In p (getCategoryData anomalies) ->
  In (Category.name p) (categories_of anomalies) /\
  Category.value p =
  Js.Num (List.length
            (filter (fun a => String.eqb (classify (message a))
                                         (Category.name p))
                    anomalies)).
Proof.
  rewrite getCategoryData_buckets. intros H.
  apply in_map_iff in H as (k & <- & H). simpl.
  split; [now apply firsts_In|].
  unfold categories_of.
  now rewrite (occurrences_filter (fun a => classify (message a))).
Qed.

(** X2. For the categories Errors and Other the click agrees with the
    chart: [handleCategoryClick] stores exactly the records that
    [getCategoryData] counts in that bucket, in their order, so the length of
    the list is the value of the bucket. *)
Theorem handleCategoryClick_exact (st : State) (category : string) :
  category = "Errors" \/ category = "Other" ->
  filteredLogs (handleCategoryClick category st) =
    filter (fun a => String.eqb (classify (message a)) category)
           (anomalies st) /\
  (forall p, In p (getCategoryData (anomalies st)) ->
             Category.name p = category ->
             Category.value p =
             Js.Num (List.length
                       (filteredLogs (handleCategoryClick category st)))).
Proof.
  intros Hc.
  assert (E : filteredLogs (handleCategoryClick category st) =
              filter (fun a => String.eqb (classify (message a)) category)
                     (anomalies st)).
  { simpl. apply filter_ext. intros a.
    destruct Hc as [->| ->]; [apply inCategory_Errors|apply inCategory_Other]. }
  split; [exact E|].
  intros p Hp Hn. rewrite E, <- Hn. now apply getCategoryData_value.
Qed.

Lemma handleCategoryClick_exact_witness :
  let st := {| anomalies := [entry "api" (-0.3) "connection error occurred";
                             entry "api" (-0.3) "connection lost";
                             entry "db" (-0.1) "Unhandled EXCEPTION"];
               filteredLogs := [] |} in
  filteredLogs (handleCategoryClick "Errors" st) =
    [entry "api" (-0.3) "connection error occurred";
     entry "db" (-0.1) "Unhandled EXCEPTION"] /\
  In {| Category.name := "Errors"; Category.value := Js.Num 2 |}
     (getCategoryData (anomalies st)).
Proof.
  intros st.
  destruct (handleCategoryClick_exact st "Errors" (or_introl eq_refl))
    as [E _].
  split; [rewrite E; reflexivity | left; reflexivity].
Defined.

(** X3. The click on a category never misses a record of its bucket:
    every record is in the list that [handleCategoryClick] stores for the
    category [getCategoryData] counts it in, and the value of a bucket is a
    number, at least 1 and at most the length of the list stored for its
    name. *)
Theorem handleCategoryClick_covers (st : State) :
  (forall a, In a (anomalies st) ->
     In a (filteredLogs (handleCategoryClick (classify (message a)) st))) /\
  (forall p, In p (getCategoryData (anomalies st)) ->
     exists n, Category.value p = Js.Num n /\ 1 <= n /\
       n <= List.length
              (filteredLogs (handleCategoryClick (Category.name p) st))).
Proof.
  split.
  - intros a Ha. simpl. apply filter_In. split; [exact Ha|].
    apply inCategory_classify.
  - intros p Hp. apply getCategoryData_value in Hp as [Hk E].
    eexists. split; [exact E|]. split.
    + unfold categories_of in Hk.
      rewrite <- (occurrences_filter (fun a => classify (message a))).
      destruct (occurrences_pos _ _ Hk) as [n ->]. lia.
    + simpl. apply filter_length_mono. intros a _ Ha.
      apply String.eqb_eq in Ha. rewrite <- Ha. apply inCategory_classify.
Qed.

(** X4. The filter of Other is the complement of the four keyword
    filters: [handleCategoryClick] selects a record for Other when it selects
    it for none of Errors, Timeouts, Connection Issues and Failures.  So
    every record is selected by the click on at least one of the five
    categories. *)
Theorem handleCategoryClick_other (st : State) (a : LogEntry) :
  inCategory "Other" a =
    negb (inCategory "Errors" a || inCategory "Timeouts" a ||
          inCategory "Connection Issues" a || inCategory "Failures" a) /\
  (In a (anomalies st) ->
   exists category,
     In category known_categories /\
     In a (filteredLogs (handleCategoryClick category st))).
Proof.
  split; [keywords a|].
  intros Ha. exists (classify (message a)). split.
  - apply categoryOf_known.
  - simpl. apply filter_In. split; [exact Ha | apply inCategory_classify].
Qed.
End CategoryClick.

(** ** The dashboard *)

Section Dashboard.
Import Visualizations.
Local Open Scope string_scope.
Variable host : Host.
Variable clock : Clock.

(** [new Set(xs)] lists the distinct members of [xs], each where it was first
    met. *)
Lemma of_array_firsts (xs : list string) : JsSet.of_array xs = firsts xs.
Proof.
  unfold JsSet.of_array.
  induction xs as [|x xs IH] using rev_ind; [reflexivity|].
  rewrite fold_left_app, firsts_snoc. simpl. rewrite IH. unfold JsSet.add.
  destruct (in_dec string_dec x (firsts xs)) as [H|H],
           (in_dec string_dec x xs) as [H'|H']; try reflexivity.
  - apply -> firsts_In in H. contradiction.
  - apply <- firsts_In in H'. contradiction.
Qed.

Lemma firsts_length (ks : list string) :
  List.length (firsts ks) <= List.length ks.
Proof.
  unfold firsts. rewrite length_rev, <- (length_rev ks).
  generalize (rev ks). intros l.
  induction l as [|x l IH]; simpl; [lia|].
  destruct (in_dec string_dec x l); simpl; lia.
Qed.

Lemma firsts_nonempty (ks : list string) : ks <> [] -> firsts ks <> [].
Proof.
  destruct ks as [|k ks]; [congruence|]. intros _ E.
  assert (H : In k (firsts (k :: ks))) by (apply firsts_In; now left).
  rewrite E in H. contradiction.
Qed.

Lemma kept_all (ks : list string) :
  ~ In "__proto__" ks -> kept ks = firsts ks.
Proof.
  intros H. unfold kept. apply filter_all. intros k Hk.
  apply -> firsts_In in Hk. apply negb_true_iff, String.eqb_neq.
  intros ->. contradiction.
Qed.

Lemma kept_length (ks : list string) :
  List.length (kept ks) <= List.length (firsts ks).
Proof. apply List.filter_length_le. Qed.

Lemma list_sum_perm (l l' : list nat) :
  Permutation l l' -> list_sum l = list_sum l'.
Proof. induction 1; simpl; lia. Qed.

Lemma getCategoryData_length (anomalies : list LogEntry) :
  List.length (getCategoryData anomalies) <= 5.
Proof.
  rewrite getCategoryData_buckets, length_map.
  change 5 with (List.length known_categories).
  apply NoDup_incl_length; [apply firsts_NoDup|].
  intros k Hk. apply -> firsts_In in Hk.
  pose proof (categories_known anomalies) as H.
  rewrite Forall_forall in H. now apply H.
Qed.

(** X5. The cells of the pie.  The buckets come in the order in which
    their categories first occur among the records; there are at most as
    many as [COLORS] has colours, the i-th cell is filled with the i-th
    colour, and no two cells have the same fill. *)
Theorem pie_cells (c : Component) :
  let d := dashboardOf host clock c in
  map Category.name (categoryData d) =
    firsts (categories_of (anomalies (page c))) /\
  List.length (categoryData d) <= List.length COLORS /\
  cells d = map Some (firstn (List.length (categoryData d)) COLORS) /\
  NoDup (cells d).
Proof.
  unfold dashboardOf. cbn [categoryData cells]. cbv zeta.
  pose proof (getCategoryData_length (anomalies (page c))) as H.
  split; [|split; [exact H|]].
  - rewrite getCategoryData_buckets, map_map. apply map_id.
  - revert H.
    destruct (List.length (getCategoryData (anomalies (page c))))
      as [|[|[|[|[|[|n]]]]]]; intros H; [| | | | | |lia]; clear H;
      (split; [reflexivity|]);
      repeat constructor; simpl; intuition discriminate.
Qed.

(** X6. The stats row and the bar chart.  The number of affected services
    is at most the number of anomalies, and at least 1 when there are any.
    The chart has at most [min 5 affected] bars, and exactly that many when
    no service is named [__proto__].  When no service name is the name of a
    member of [Object.prototype] and at most five services are affected, the
    counts of the bars add up to the total of anomalies. *)
Theorem stats_row_bars (c : Component) :
  let d := dashboardOf host clock c in
  let names := map serviceName (anomalies (page c)) in
  affectedServices d <= totalAnomalies d /\
  (totalAnomalies d <> 0 -> 1 <= affectedServices d) /\
  List.length (serviceData d) <= Nat.min 5 (affectedServices d) /\
  (~ In "__proto__" names ->
   List.length (serviceData d) = Nat.min 5 (affectedServices d)) /\
  (Forall plain names -> affectedServices d <= 5 ->
   list_sum (map (fun p => amount (Service.count p)) (serviceData d)) =
   totalAnomalies d).
Proof.
  unfold dashboardOf. cbn [affectedServices totalAnomalies serviceData].
  cbv zeta. unfold JsSet.size. rewrite of_array_firsts.
  set (ks := map serviceName (anomalies (page c))).
  assert (L : List.length ks = List.length (anomalies (page c)))
    by apply length_map.
  rewrite <- L. split; [apply firsts_length|]. split; [|split; [|split]].
  - intros H. pose proof (firsts_nonempty ks) as N.
    destruct (firsts ks); [|simpl; lia].
    destruct ks; [simpl in H; lia|]. exfalso. now apply N.
  - rewrite getServiceData_bars. fold ks. pose proof (kept_length ks). lia.
  - intros H. rewrite getServiceData_bars. fold ks. now rewrite kept_all.
  - intros Hp H5. rewrite (getServiceData_ranked _ Hp). fold ks.
    pose proof (Permutation_length (ranked_services ks)) as Lr.
    rewrite length_map in Lr.
    rewrite firstn_all2 by lia.
    rewrite <- (occurrences_total ks).
    apply list_sum_perm. unfold ranked.
    rewrite sort_perm, entries_perm. unfold tally. rewrite !map_map. simpl.
    reflexivity.
Qed.

(** The list of filtered logs is shown when there are any: its heading
    counts them all, its cards are the first ten. *)
Lemma filtered_shown (c : Component) (n : nat) :
  List.length (filteredLogs (page c)) = S n ->
  filtered (dashboardOf host clock c) =
  Some (S n, map (cardOf clock) (Js.slice_first 10 (filteredLogs (page c)))).
Proof.
  intros E. unfold dashboardOf. cbn [filtered]. cbv zeta. now rewrite E.
Qed.

(** X14. A click on what the charts show always opens the list of
    filtered logs.  After a click on a bar of the service chart the heading
    counts the records of that service (at least one) and the cards are
    those of the first ten of them, in their order.  After a click on a
    segment of the pie the heading counts the records that the filter of
    that category selects, at least as many as the segment counts, and the
    cards are those of the first ten of them. *)
Theorem chart_click_opens_list (c : Component) :
  (forall p, In p (getServiceData (anomalies (page c))) ->
     let selected :=
       filter (fun a => String.eqb (serviceName a) (Service.service p))
              (anomalies (page c)) in
     filtered (dashboardOf host clock (onBarClick (Some p) c)) =
       Some (List.length selected, map (cardOf clock) (firstn 10 selected)) /\
     1 <= List.length selected /\
     List.length (map (cardOf clock) (firstn 10 selected)) =
       Nat.min 10 (List.length selected) /\
     map log (map (cardOf clock) (firstn 10 selected)) = firstn 10 selected) /\
  (forall p, In p (getCategoryData (anomalies (page c))) ->
     let selected :=
       filter (inCategory (Category.name p)) (anomalies (page c)) in
     filtered (dashboardOf host clock (onPieClick p c)) =
       Some (List.length selected, map (cardOf clock) (firstn 10 selected)) /\
     1 <= amount (Category.value p) <= List.length selected /\
     List.length (map (cardOf clock) (firstn 10 selected)) =
       Nat.min 10 (List.length selected) /\
     map log (map (cardOf clock) (firstn 10 selected)) = firstn 10 selected).
Proof.
  assert (Hlog : forall l, map log (map (cardOf clock) l) = l)
    by (intros l; rewrite map_map; apply map_id).
  split.
  - intros p Hp selected. apply getServiceData_In in Hp as [Hk _].
    apply kept_In in Hk as [Hk _].
    destruct (occurrences_pos _ _ Hk) as [m Em].
    rewrite occurrences_filter in Em. fold selected in Em.
    set (c' := onBarClick (Some p) c).
    change selected with (filteredLogs (page c')) in *.
    split; [rewrite Em; now apply filtered_shown|].
    split; [lia|]. split; [|apply Hlog].
    now rewrite length_map, length_firstn.
  - intros p Hp selected.
    pose proof (getCategoryData_value _ _ Hp) as [Hk E].
    unfold categories_of in Hk.
    destruct (occurrences_pos _ _ Hk) as [m Em].
    rewrite (occurrences_filter (fun a => classify (message a))) in Em.
    assert (Hle : List.length
                    (filter (fun a => String.eqb (classify (message a))
                                                 (Category.name p))
                            (anomalies (page c))) <=
                  List.length selected).
    { apply filter_length_mono. intros a _ Ha.
      apply String.eqb_eq in Ha. rewrite <- Ha. apply inCategory_classify. }
    set (c' := onPieClick p c).
    change selected with (filteredLogs (page c')) in *.
    destruct (List.length (filteredLogs (page c'))) as [|n] eqn:En; [lia|].
    split; [now apply filtered_shown|].
    rewrite E, Em. cbn [amount]. split; [lia|]. split; [|apply Hlog].
    now rewrite length_map, length_firstn, En.
Qed.
End Dashboard.

(** ** The severity badge and the score of a log *)

Section BadgeAndScore.
Local Open Scope float_scope.

Lemma SFleb_trans (a b c : spec_float) :
  SFleb a b = true -> SFleb b c = true -> SFleb a c = true.
Proof.
  unfold SFleb, SFcompare.
  destruct a as [sa|sa| |sa ma ea], b as [sb|sb| |sb mb eb],
           c as [sc|sc| |sc mc ec];
    try destruct sa; try destruct sb; try destruct sc;
    try discriminate; try reflexivity;
    rewrite ?Pos.compare_cont_spec; simpl;
    destruct (Z.compare_spec ea eb), (Z.compare_spec eb ec),
             (Z.compare_spec ea ec);
    try discriminate; try reflexivity; try lia; subst;
    destruct (Pos.compare_spec ma mb), (Pos.compare_spec mb mc),
             (Pos.compare_spec ma mc);
    simpl; try discriminate; try reflexivity; lia.
Qed.

Lemma leb_trans (x y z : float) :
  (x <=? y) = true -> (y <=? z) = true -> (x <=? z) = true.
Proof. rewrite !FloatAxioms.leb_spec. apply SFleb_trans. Qed.

(** Two numbers that are not NaN compare one way or the other. *)
Lemma ltb_false_leb (x y : float) :
  is_nan x = false -> is_nan y = false ->
  (x <? y) = false -> (y <=? x) = true.
Proof.
  unfold is_nan.
  rewrite !FloatAxioms.eqb_spec, FloatAxioms.ltb_spec, FloatAxioms.leb_spec.
  unfold SFltb, SFleb, SFeqb.
  rewrite (SFcompare_swap (Prim2SF x) (Prim2SF y)).
  destruct (Prim2SF x) as [sa|sa| |sa ma ea] eqn:Ex,
           (Prim2SF y) as [sb|sb| |sb mb eb] eqn:Ey;
    try discriminate; intros _ _;
    destruct (SFcompare _ _) as [[]|] eqn:C;
    try reflexivity; try discriminate;
    unfold SFcompare in C;
    try destruct sa; try destruct sb; try discriminate;
    destruct (ea ?= eb)%Z; discriminate.
Qed.

Lemma ltb_not_nan (x y : float) :
  (x <? y) = true -> is_nan x = false /\ is_nan y = false.
Proof. intros H. apply leb_not_nan, ltb_leb, H. Qed.

(** A score that is a number is below -1, from -1 to 1, or above 1. *)
Lemma in_range_cases (x : float) :
  is_nan x = false ->
  (x <? -1) = true \/ in_range x \/ (1 <? x) = true.
Proof.
  intros Hn.
  destruct (x <? -1) eqn:Hlo; [now left|].
  destruct (1 <? x) eqn:Hhi; [now right; right|].
  right; left. split; apply ltb_false_leb; auto.
Qed.

(** The score shown for a number is between 1 and 10. *)
Lemma convertToTenScale_bounds (x : float) :
  is_nan x = false ->
  (1 <=? convertToTenScale x) = true /\ (convertToTenScale x <=? 10) = true.
Proof.
  intros Hn. destruct (in_range_cases x Hn) as [H|[H|H]].
  - unfold convertToTenScale. rewrite (clamp_below _ H).
    split; vm_compute; reflexivity.
  - assert (R1 : in_range 1) by (split; reflexivity).
    assert (R0 : in_range (-1)) by (split; reflexivity).
    destruct H as [Hlo Hhi]. split.
    + exact (convertToTenScale_monotone x 1 (conj Hlo Hhi) R1 Hhi).
    + exact (convertToTenScale_monotone (-1) x R0 (conj Hlo Hhi) Hlo).
  - unfold convertToTenScale. rewrite (clamp_above _ H).
    split; vm_compute; reflexivity.
Qed.

(** X11. [convertToTenScale] on every number: NaN gives NaN, and every
    other score, the infinities included, gives a score from 1 to 10 with
    one decimal place at most: [k / 10] for an integer [k] from 10 to
    100. *)
Theorem convertToTenScale_total (rawScore : float) :
  (is_nan rawScore = true -> is_nan (convertToTenScale rawScore) = true) /\
  (is_nan rawScore = false ->
   (1 <=? convertToTenScale rawScore) = true /\
   (convertToTenScale rawScore <=? 10) = true /\
   exists k : Z,
     (10 <= k <= 100)%Z /\ convertToTenScale rawScore = JsMath.of_Z k / 10).
Proof.
  split.
  - intros H. unfold convertToTenScale, JsMath.max, JsMath.min.
    rewrite H. reflexivity.
  - intros Hn. destruct (convertToTenScale_bounds _ Hn) as [Hlo Hhi].
    split; [exact Hlo|]. split; [exact Hhi|].
    destruct (in_range_cases _ Hn) as [H|[H|H]].
    + exists 100%Z. split; [lia|].
      unfold convertToTenScale. rewrite (clamp_below _ H). reflexivity.
    + destruct (convertToTenScale_in_range _ H) as (E & R & B).
      eexists. split; [exact B|]. now rewrite E, R.
    + exists 10%Z. split; [lia|].
      unfold convertToTenScale. rewrite (clamp_above _ H). reflexivity.
Qed.

(** A score between two numbers of [-1, 1] is shown between what they
    show, in the opposite order. *)
Lemma convertToTenScale_between (a b x : float) :
  in_range a -> in_range b -> (a <=? x) = true -> (x <=? b) = true ->
  (convertToTenScale b <=? convertToTenScale x) = true /\
  (convertToTenScale x <=? convertToTenScale a) = true.
Proof.
  intros [Ha1 Ha2] [Hb1 Hb2] Hax Hxb.
  assert (Rx : in_range x)
    by (split; [exact (leb_trans _ _ _ Ha1 Hax) | exact (leb_trans _ _ _ Hxb Hb2)]).
  split; apply convertToTenScale_monotone;
    auto; split; assumption.
Qed.
End BadgeAndScore.

Section ModalBands.
Local Open Scope float_scope.
Variable clock : Clock.

Lemma tiers_shown :
  convertToTenScale (-1) = 10 /\ convertToTenScale (-0.5) = 7.8 /\
  convertToTenScale (-0.2) = 6.4 /\ convertToTenScale (-0.05) = 5.7 /\
  convertToTenScale 0 = 5.5 /\ convertToTenScale 1 = 1.
Proof. repeat split; vm_compute; reflexivity. Qed.

(** X10. The dialog shows a score that fits its badge: from 7.8 to 10 for
    Critical, from 6.4 to 7.8 for Severe, from 5.7 to 6.4 for Moderate, from
    5.5 to 5.7 for Low, and from 1 to 5.5 for Normal, unless the raw score
    is NaN: then the badge is Normal and the score shown is NaN. *)
Theorem modal_score_band (l : LogEntry) :
  exists m,
    LogDetailModal clock (Some l) = Some m /\
    let shown := Modal.AnomalyScore m in
    match level (Modal.SeverityBadge m) with
    | critical => (7.8 <=? shown) = true /\ (shown <=? 10) = true
    | severe => (6.4 <=? shown) = true /\ (shown <=? 7.8) = true
    | moderate => (5.7 <=? shown) = true /\ (shown <=? 6.4) = true
    | low => (5.5 <=? shown) = true /\ (shown <=? 5.7) = true
    | normal =>
      if is_nan (score l) then is_nan shown = true
      else (1 <=? shown) = true /\ (shown <=? 5.5) = true
    end.
Proof.
  eexists. split; [reflexivity|].
  cbn [Modal.AnomalyScore Modal.SeverityBadge]. cbv zeta.
  destruct tiers_shown as (E1 & E2 & E3 & E4 & E5 & E6).
  set (s := score l). unfold getSeverity.
  destruct (s <? -0.5) eqn:H1.
  { cbn [level Severities.Critical].
    destruct (ltb_not_nan _ _ H1) as [Hn _].
    split; [|apply convertToTenScale_bounds, Hn].
    destruct (in_range_cases s Hn) as [H|[[Hlo Hhi]|H]].
    - unfold convertToTenScale. rewrite (clamp_below _ H). reflexivity.
    - rewrite <- E2.
      apply (convertToTenScale_between (-1) (-0.5) s);
        try (split; reflexivity); auto using ltb_leb.
    - pose proof (ltb_trans _ _ _ H H1) as F. discriminate F. }
  destruct (s <? -0.2) eqn:H2.
  { cbn [level Severities.Severe].
    destruct (ltb_not_nan _ _ H2) as [Hn _].
    rewrite <- E2, <- E3.
    apply (convertToTenScale_between (-0.5) (-0.2) s);
      try (split; reflexivity); auto using ltb_leb, ltb_false_leb. }
  destruct (s <? -0.05) eqn:H3.
  { cbn [level Severities.Moderate].
    destruct (ltb_not_nan _ _ H3) as [Hn _].
    rewrite <- E3, <- E4.
    apply (convertToTenScale_between (-0.2) (-0.05) s);
      try (split; reflexivity); auto using ltb_leb, ltb_false_leb. }
  destruct (s <? 0) eqn:H4.
  { cbn [level Severities.Low].
    destruct (ltb_not_nan _ _ H4) as [Hn _].
    rewrite <- E4, <- E5.
    apply (convertToTenScale_between (-0.05) 0 s);
      try (split; reflexivity); auto using ltb_leb, ltb_false_leb. }
  cbn [level Severities.Normal].
  destruct (is_nan s) eqn:Hn.
  - unfold convertToTenScale, JsMath.max, JsMath.min. rewrite Hn. reflexivity.
  - split; [apply convertToTenScale_bounds, Hn|].
    destruct (in_range_cases s Hn) as [H|[[Hlo Hhi]|H]].
    + assert (F : (-1 <? 0) = true) by reflexivity.
      rewrite (ltb_trans s (-1) 0 H F) in H4. discriminate.
    + rewrite <- E5.
      apply (convertToTenScale_between 0 1 s);
        try (split; reflexivity); auto using ltb_false_leb.
    + unfold convertToTenScale. rewrite (clamp_above _ H). reflexivity.
Qed.

End ModalBands.

(** ** Loading the records *)

Section Loading.
Local Open Scope string_scope.
Variable host : Host.
Variable clock : Clock.

(** X8. What the page shows once [fetchAnomalies] has run.  The page is
    no longer loading, and the filtered logs and the selected log are the
    ones of before.  After a rejection the records are the ones of before
    but the page shows the error alone; after a response the records are
    the ones received, the page shows the empty state for none and the
    dashboard otherwise, and nothing is left of an earlier fetch, failed or
    not. *)
Theorem fetchAnomalies_view (response : Promise.settled (list LogEntry))
  (c : Visualizations.Component) :
  let c' := Visualizations.fetchAnomalies response c in
  Visualizations.loading c' = false /\
  filteredLogs (Visualizations.page c') =
    filteredLogs (Visualizations.page c) /\
  Visualizations.selectedLog c' = Visualizations.selectedLog c /\
  match response with
  | Promise.rejected =>
    anomalies (Visualizations.page c') = anomalies (Visualizations.page c) /\
    Visualizations.render host clock c' =
    Visualizations.ErrorState
      "Failed to fetch anomalies. Make sure the backend is running."
  | Promise.resolved data =>
    anomalies (Visualizations.page c') = data /\
    Visualizations.render host clock c' =
    match data with
    | [] => Visualizations.EmptyState
    | _ :: _ =>
      Visualizations.Dashboard (Visualizations.dashboardOf host clock c')
    end /\
    forall earlier,
      Visualizations.fetchAnomalies response
        (Visualizations.fetchAnomalies earlier c) = c'
  end.
Proof.
  destruct response as [data|]; cbn.
  - repeat split; [now destruct data|].
    intros [earlier|]; reflexivity.
  - repeat split.
Qed.

(** X9. The About page once [fetchStats] has run on the mounted
    component.  It is no longer loading; the number of services is at most
    the number of logs, and 0 only when there is no log; the recent logs are
    the first five logs; the grid of numbers is shown when the list of
    recent logs is.  When one of the two requests is rejected nothing of the
    other one is kept: the numbers stay 0 and the list empty. *)
Theorem fetchStats_mounted
  (getLogs getAnomalies : Promise.settled (list LogEntry)) :
  let c := About.fetchStats getLogs getAnomalies About.initial in
  let s := About.stats c in
  About.loading c = false /\
  About.services s <= About.totalLogs s /\
  (About.services s = 0 <-> About.totalLogs s = 0) /\
  List.length (About.recentLogs c) = Nat.min 5 (About.totalLogs s) /\
  (About.statsGrid (About.render clock c) = None <->
   About.recentActivity (About.render clock c) = None) /\
  (forall logs anomalies,
     getLogs = Promise.resolved logs ->
     getAnomalies = Promise.resolved anomalies ->
     About.totalLogs s = List.length logs /\
     About.totalAnomalies s = List.length anomalies /\
     About.recentLogs c = firstn 5 logs) /\
  ((getLogs = Promise.rejected \/ getAnomalies = Promise.rejected) ->
   s = About.stats About.initial /\ About.recentLogs c = []).
Proof.
  destruct getLogs as [logs|], getAnomalies as [anomalies|]; cbn -[Nat.min firstn].
  2-4: (repeat split; try discriminate; try reflexivity; try lia; auto).
  unfold JsSet.size. rewrite of_array_firsts.
  pose proof (firsts_length (map serviceName logs)) as L.
  rewrite length_map in L.
  split; [reflexivity|]. split; [exact L|]. split; [|split; [|split; [|split]]].
  - split; intros H; [|lia].
    destruct logs as [|a logs]; [reflexivity|]. exfalso.
    apply length_zero_iff_nil in H.
    now apply (firsts_nonempty (map serviceName (a :: logs))).
  - unfold Js.slice_first. apply length_firstn.
  - destruct logs; cbn; split; intros H; (reflexivity || discriminate).
  - intros logs' anomalies' E1 E2. inversion E1; inversion E2; subst. auto.
  - intros [H|H]; discriminate.
Qed.
End Loading.

(** ** The counts of the time series *)

Section TimeSeriesCounts.
Local Open Scope string_scope.
Variable host : Host.

Lemma getTimeSeriesData_stored (anomalies : list LogEntry) :
  getTimeSeriesData host anomalies =
  Js.slice_last 10
    (Js.sort (fun a b => minus (getTime host (TimeSeries.date a))
                               (getTime host (TimeSeries.date b)))
       (map point
          (Js.entries
             (map (fun k => (k, stored k (occurrences k (dates_of host anomalies))))
                  (kept (dates_of host anomalies)))))).
Proof.
  unfold getTimeSeriesData.
  rewrite (fold_group (fun a => toLocaleDateString host (timestamp a))).
  change (fold_left _ (map _ anomalies) [])
    with (group (dates_of host anomalies)).
  rewrite group_stored. f_equal. f_equal. apply map_ext. now intros [k v].
Qed.

Lemma amount_stored (k : string) (n : nat) : amount (stored k n) <= n.
Proof. unfold stored. destruct (Js.inherited k); simpl; lia. Qed.

Lemma list_sum_filter_le (f : string -> nat) (g : string -> nat)
  (keep : string -> bool) (l : list string) :
  (forall k, f k <= g k) ->
  list_sum (map f (filter keep l)) <= list_sum (map g l).
Proof.
  intros H. induction l as [|k l IH]; simpl; [lia|].
  specialize (H k). destruct (keep k); simpl; lia.
Qed.

Lemma list_sum_skipn (n : nat) (l : list nat) :
  list_sum (skipn n l) <= list_sum l.
Proof.
  rewrite <- (firstn_skipn n l) at 2. rewrite list_sum_app. lia.
Qed.

(** X13. The counts of the time series.  No record gives no point; the
    counts of the points add up to at most the number of records, and to
    exactly that number when the records are of at most ten dates and no
    date string is the name of a member of [Object.prototype]. *)
Theorem getTimeSeriesData_counts (anomalies : list LogEntry) :
  let out := getTimeSeriesData host anomalies in
  let total := list_sum (map (fun p => amount (TimeSeries.count p)) out) in
  (anomalies = [] -> out = []) /\
  total <= List.length anomalies /\
  (Forall plain (dates_of host anomalies) ->
   List.length (firsts (dates_of host anomalies)) <= 10 ->
   total = List.length anomalies).
Proof.
  cbv zeta. split; [now intros ->|].
  rewrite getTimeSeriesData_stored.
  set (ks := dates_of host anomalies).
  set (cmp := fun a b => minus _ _).
  set (o := map (fun k => (k, stored k (occurrences k ks))) (kept ks)).
  assert (L : List.length ks = List.length anomalies) by apply length_map.
  assert (P : Permutation
                (map (fun p => amount (TimeSeries.count p))
                     (Js.sort cmp (map point (Js.entries o))))
                (map (fun k => amount (stored k (occurrences k ks))) (kept ks))).
  { rewrite sort_perm, entries_perm. unfold o. rewrite !map_map. reflexivity. }
  split.
  - unfold Js.slice_last. rewrite <- skipn_map.
    eapply Nat.le_trans; [apply list_sum_skipn|].
    rewrite (list_sum_perm _ _ P), <- L, <- (occurrences_total ks).
    unfold kept. apply list_sum_filter_le. intros k. apply amount_stored.
  - intros Hp H10.
    assert (Hk : kept ks = firsts ks).
    { apply kept_all. intros H. rewrite Forall_forall in Hp.
      specialize (Hp _ H). discriminate Hp. }
    unfold Js.slice_last.
    replace (List.length (Js.sort cmp (map point (Js.entries o))) - 10) with 0.
    + cbn [skipn]. rewrite (list_sum_perm _ _ P), Hk, <- L.
      rewrite <- (occurrences_total ks). f_equal.
      apply map_ext_in. intros k Hin. apply -> firsts_In in Hin.
      rewrite Forall_forall in Hp. specialize (Hp _ Hin).
      unfold stored. now rewrite Hp.
    + rewrite sort_length, length_map, (Permutation_length (entries_perm _)).
      unfold o. rewrite length_map, Hk. lia.
Qed.
End TimeSeriesCounts.

(** ** The charts and the order of the records *)

Section OrderOfRecords.
Local Open Scope string_scope.

(** A list sorted by a key that tells its members apart is determined by
    its members. *)
Lemma sorted_perm_eq {A} (key : A -> Z) (l l' : list A) :
  StronglySorted (fun a b => (key a <= key b)%Z) l ->
  StronglySorted (fun a b => (key a <= key b)%Z) l' ->
  Permutation l l' ->
  (forall a b, In a l -> In b l -> key a = key b -> a = b) ->
  l = l'.
Proof.
  revert l'. induction l as [|x l IH]; intros l' Hs Hs' Hp Hinj.
  - now apply Permutation_nil in Hp.
  - destruct l' as [|y l'];
      [apply Permutation_sym, Permutation_nil in Hp; discriminate|].
    apply StronglySorted_inv in Hs as [Hs Hx], Hs' as [Hs' Hy].
    rewrite Forall_forall in Hx, Hy.
    assert (Hyin : In y (x :: l))
      by (apply (Permutation_in _ (Permutation_sym Hp)); now left).
    assert (Hxin : In x (y :: l')) by (apply (Permutation_in _ Hp); now left).
    assert (E : x = y).
    { apply Hinj; [now left | exact Hyin |].
      destruct Hyin as [->|Hyin]; [reflexivity|].
      destruct Hxin as [->|Hxin]; [reflexivity|].
      specialize (Hx _ Hyin). specialize (Hy _ Hxin). lia. }
    subst y. f_equal. apply IH; auto.
    + now apply Permutation_cons_inv in Hp.
    + intros a b Ha Hb. apply Hinj; now right.
Qed.

Lemma firsts_perm (ks ks' : list string) :
  Permutation ks ks' -> Permutation (firsts ks) (firsts ks').
Proof.
  intros H. apply NoDup_Permutation; try apply firsts_NoDup.
  intros k. rewrite !firsts_In.
  split; apply Permutation_in; [exact H | now apply Permutation_sym].
Qed.

Lemma occurrences_perm (k : string) (ks ks' : list string) :
  Permutation ks ks' -> occurrences k ks = occurrences k ks'.
Proof.
  intros H. unfold occurrences.
  now apply (Permutation_count_occ string_dec).
Qed.

Lemma tally_perm (ks ks' : list string) :
  Permutation ks ks' -> Permutation (tally ks) (tally ks').
Proof.
  intros H. unfold tally.
  rewrite (map_ext (fun k => (k, Js.Num (occurrences k ks)))
             (fun k => (k, Js.Num (occurrences k ks'))))
    by (intros k; now rewrite (occurrences_perm k _ _ H)).
  apply Permutation_map, firsts_perm, H.
Qed.

(** X16. The pie does not depend on the order of the records but for the
    order of its segments: the same records in another order give the same
    buckets, with the same values. *)
Theorem getCategoryData_any_order (anomalies anomalies' : list LogEntry) :
  Permutation anomalies anomalies' ->
  Permutation (getCategoryData anomalies) (getCategoryData anomalies').
Proof.
  intros H. rewrite !getCategoryData_buckets.
  assert (Hk : Permutation (categories_of anomalies) (categories_of anomalies'))
    by (apply Permutation_map, H).
  rewrite (map_ext
             (fun k => {| Category.name := k;
                          Category.value :=
                            Js.Num (occurrences k (categories_of anomalies)) |})
             (fun k => {| Category.name := k;
                          Category.value :=
                            Js.Num (occurrences k (categories_of anomalies')) |}))
    by (intros k; now rewrite (occurrences_perm k _ _ Hk)).
  apply Permutation_map, firsts_perm, Hk.
Qed.

Lemma getCategoryData_any_order_witness :
  let records := [entry "api" (-0.3) "connection error occurred";
                  entry "api" (-0.3) "connection lost";
                  entry "db" (-0.1) "Unhandled EXCEPTION"] in
  Permutation (getCategoryData records) (getCategoryData (rev records)).
Proof.
  intros records. apply (getCategoryData_any_order records (rev records)).
  apply Permutation_rev.
Defined.
End OrderOfRecords.

Section OrderOfDays.
Variable host : Host.
Variable day : Z -> Z.

Lemma chronological_perm (anomalies anomalies' : list LogEntry) :
  Permutation anomalies anomalies' ->
  chronological host day anomalies -> chronological host day anomalies'.
Proof.
  intros Hp Hc.
  assert (Hin : forall a, In a anomalies' -> In a anomalies)
    by (intros a; apply Permutation_in; now apply Permutation_sym).
  split.
  - apply Forall_forall. intros k Hk. apply in_map_iff in Hk as (a & <- & Ha).
    pose proof (dates_plain Hc) as P. rewrite Forall_forall in P.
    apply P. apply in_map. auto.
  - intros a Ha. apply (dates_read Hc). auto.
  - intros a b Ha Hb. apply (dates_same Hc); auto.
  - intros a b Ha Hb. apply (dates_ordered Hc); auto.
Qed.

Lemma series_key_inj (anomalies : list LogEntry) (p q : TimeSeries.point) :
  chronological host day anomalies ->
  In p (series host (dates_of host anomalies)) ->
  In q (series host (dates_of host anomalies)) ->
  time_of host p = time_of host q -> p = q.
Proof.
  intros Hc Hp Hq E.
  apply (series_In host day anomalies Hc) in Hp as (a & Ha & Da & Ca & Ta).
  apply (series_In host day anomalies Hc) in Hq as (b & Hb & Db & Cb & Tb).
  unfold time_of in E. rewrite Ta, Tb in E.
  pose proof (dates_same Hc a b Ha Hb E) as D.
  destruct p as [dp cp], q as [dq cq]. simpl in *. subst. now rewrite D.
Qed.

(** X15. The time series does not depend on the order of the records:
    with a host that reads the dates back, the same records in another order
    give the same points in the same order. *)
Theorem getTimeSeriesData_any_order (anomalies anomalies' : list LogEntry) :
  chronological host day anomalies ->
  Permutation anomalies anomalies' ->
  getTimeSeriesData host anomalies' = getTimeSeriesData host anomalies.
Proof.
  intros Hc Hp. pose proof (chronological_perm _ _ Hp Hc) as Hc'.
  rewrite (getTimeSeriesData_series host day anomalies Hc).
  rewrite (getTimeSeriesData_series host day anomalies' Hc').
  f_equal. symmetry. unfold series.
  apply (sorted_perm_eq (time_of host)); try apply sort_sorted.
  - rewrite !sort_perm. apply Permutation_map.
    rewrite !entries_perm. apply tally_perm, Permutation_map, Hp.
  - intros p q. apply (series_key_inj anomalies p q Hc).
Qed.

End OrderOfDays.

Lemma getTimeSeriesData_any_order_witness :
  getTimeSeriesData EnUsUtc.host (rev november) =
  getTimeSeriesData EnUsUtc.host november.
Proof.
  apply (getTimeSeriesData_any_order EnUsUtc.host EnUsUtc.day november
           (rev november) november_chronological).
  apply Permutation_rev.
Defined.

Section OrderOfServices.
Local Open Scope string_scope.

Lemma sorted_map {A} (key : A -> Z) (l : list A) :
  StronglySorted (fun a b => (key a <= key b)%Z) l ->
  StronglySorted Z.le (map key l).
Proof.
  induction 1 as [|x l Hs IH Hx]; simpl; constructor; [exact IH|].
  rewrite Forall_forall in *. intros z Hz.
  apply in_map_iff in Hz as (y & <- & Hy). auto.
Qed.

Lemma ranked_perm (ks ks' : list string) :
  Permutation ks ks' -> Permutation (ranked ks) (ranked ks').
Proof.
  intros H. unfold ranked. rewrite !sort_perm. apply Permutation_map.
  rewrite !entries_perm. now apply tally_perm.
Qed.

Lemma ranked_counts (ks : list string) :
  map Service.count (ranked ks) =
  map (fun z => Js.Num (Z.to_nat (- z)))
      (map (fun p => (- number (Service.count p))%Z) (ranked ks)).
Proof.
  rewrite map_map. apply map_ext_in. intros p Hp.
  apply ranked_In in Hp as [_ ->]. unfold number. simpl.
  f_equal. lia.
Qed.

(** X17. The bar chart and the order of the records, when no service name
    is the name of a member of [Object.prototype]: the same records in
    another order give bars of the same heights, in the same order, and
    the same bars when no two services have the same number of records. *)
Theorem getServiceData_any_order (anomalies anomalies' : list LogEntry) :
  let ks := map serviceName anomalies in
  Forall plain ks ->
  Permutation anomalies anomalies' ->
  map Service.count (getServiceData anomalies') =
    map Service.count (getServiceData anomalies) /\
  ((forall s s', In s ks -> In s' ks ->
      occurrences s ks = occurrences s' ks -> s = s') ->
   getServiceData anomalies' = getServiceData anomalies).
Proof.
  intros ks Hplain Hp.
  assert (Hk : Permutation ks (map serviceName anomalies'))
    by (apply Permutation_map, Hp).
  assert (Hplain' : Forall plain (map serviceName anomalies'))
    by (eapply Permutation_Forall; eauto).
  rewrite (getServiceData_ranked _ Hplain), (getServiceData_ranked _ Hplain').
  fold ks. set (ks' := map serviceName anomalies') in *.
  pose proof (ranked_perm _ _ Hk) as Hr.
  split.
  - rewrite <- (firstn_map Service.count 5 (ranked ks)),
      <- (firstn_map Service.count 5 (ranked ks')),
      (ranked_counts ks), (ranked_counts ks').
    f_equal. f_equal. symmetry.
    apply (sorted_perm_eq (fun z => z)).
    + apply (sorted_map (fun p => (- number (Service.count p))%Z)), sort_sorted.
    + apply (sorted_map (fun p => (- number (Service.count p))%Z)), sort_sorted.
    + now apply Permutation_map.
    + auto.
  - intros Hinj. f_equal. symmetry.
    apply (sorted_perm_eq (fun p => (- number (Service.count p))%Z));
      try apply sort_sorted; [exact Hr|].
    intros p q Hp' Hq' E.
    apply ranked_In in Hp' as [Hp1 Hp2], Hq' as [Hq1 Hq2].
    rewrite Hp2, Hq2 in E. unfold number in E. simpl in E.
    assert (E' : occurrences (Service.service p) ks =
                 occurrences (Service.service q) ks) by lia.
    pose proof (Hinj _ _ Hp1 Hq1 E') as Es.
    destruct p as [sp cp], q as [sq cq]. simpl in *. congruence.
Qed.

Lemma getServiceData_any_order_witness :
  let records := [entry "auth" (-0.6) "fatal exception";
                  entry "billing" (-0.1) "connection lost";
                  entry "auth" (-0.3) "timeout"] in
  getServiceData (rev records) = getServiceData records.
Proof.
  intros records.
  assert (Hplain : Forall plain (map serviceName records))
    by (repeat constructor).
  apply (proj2 (getServiceData_any_order records (rev records) Hplain
                  (Permutation_rev records))).
  intros s s' Hs Hs'. simpl in Hs, Hs'.
  repeat (destruct Hs as [<-|Hs]; [|]);
    repeat (destruct Hs' as [<-|Hs']; [|]);
    try contradiction; vm_compute; intros E;
    first [reflexivity | discriminate E].
Defined.
End OrderOfServices.
